(** * Self-time computation of build_profile/profile.py

    A shallow embedding of [get_data], [get_times] and
    [create_event_objects] of
    [src/build_stats_functions/build_profile/profile.py], and the
    properties of the self-time engine proved on it.

    Conventions of the embedding.
    - A Python exception is a value of [exn]; a computation that may raise
      is a [result].  [UnableToUnzipFileError] keeps the exception it is
      raised from as its cause.
    - A trace event (a decoded JSON object) is a record of the six fields
      the program reads, each optional, with the types of the profile
      format ([None] is an absent key), and of the text [str] gives for the
      whole object, which is all the program does with the other keys and
      with the order of the keys.  Python integers are [Z].
    - A Python [dict] is an association list in insertion order with unique
      keys ([dict_wf]); [d[k] = v] overwrites in place or appends.
    - [str(curr)], the key kept in the per-thread set [seen], is the field
      [text] of the event: two records with the same six fields and another
      text (another order of the keys, another key) are two keys, and two
      records with the same text are one.
    - A Python [float] is an IEEE 754 binary64 value ([spec_float] with
      precision 53 and maximal exponent 1024). *)

From Stdlib Require Import ZArith Ascii String List SpecFloat DecimalString.
From stdpp Require Import base decidable countable gmap strings list.

Local Open Scope string_scope.
Local Open Scope list_scope.
Local Open Scope Z_scope.

(** ** Exceptions and the result monad *)

(** A JSON scalar usable as a dictionary key: thread identifiers are
    integers or strings, field names are strings. *)
Inductive scalar : Type :=
| Int (n : Z)
| Str (s : string).

Inductive exn : Type :=
| UnableToUnzipFileError (cause : exn)
| IncorrectFileTypeError
| MissingTopLevelError
| IncorrectProfileFormatError
| MissingFirstLineError
| KeyError (key : scalar)
| OverflowError.

Inductive result (A : Type) : Type :=
| Ok (a : A)
| Raise (e : exn).

Arguments Ok {A} a.
Arguments Raise {A} e.

#[global] Instance result_ret : MRet result := fun A a => Ok a.

#[global] Instance result_bind : MBind result := fun A B f m =>
  match m with
  | Ok a => f a
  | Raise e => Raise e
  end.

Definition is_ok {A} (r : result A) : bool :=
  match r with Ok _ => true | Raise _ => false end.

(** [for x in l: a = f(a, x)], stopping at the first exception. *)
Fixpoint foldM {A B} (f : A -> B -> result A) (a : A) (l : list B) : result A :=
  match l with
  | [] => Ok a
  | x :: l' => a' ← f a x; foldM f a' l'
  end.

(** ** Events *)

Abbreviation thread_id := scalar.

(** A record of [traceEvents].  The six fields are the keys the program
    reads.  [text] is [str(event)], the text Python prints for the whole
    dict: every key with its value, in the order of the file, the keys the
    program does not read included.  It is the only use the program makes
    of the other keys and of the order, and it is the key of [seen]: two
    records with the same six fields may have two texts. *)
Record trace_event : Type := TraceEvent {
  name : option string;
  cat : option string;
  ph : option string;
  ts : option Z;
  dur : option Z;
  tid : option thread_id;
  text : string
}.

#[global] Instance scalar_eq_dec : EqDecision scalar.
Proof. solve_decision. Defined.

#[global] Instance event_eq_dec : EqDecision trace_event.
Proof. solve_decision. Defined.

(** [d[key]], given the outcome of the lookup: a [KeyError] when the key
    is absent. *)
Definition getitem_at {A} (key : scalar) (field : option A) : result A :=
  match field with
  | Some v => Ok v
  | None => Raise (KeyError key)
  end.

(** [event[key]] for a field name. *)
Definition getitem {A} (key : string) (field : option A) : result A :=
  getitem_at (Str key) field.

(** [key in event] *)
Definition has {A} (field : option A) : bool :=
  match field with Some _ => true | None => false end.

(** ** Insertion-ordered dictionaries *)

Section Dict.
Context {K V : Type} `{EqDecision K}.

Definition dict : Type := list (K * V).

Fixpoint dict_get (k : K) (d : dict) : option V :=
  match d with
  | [] => None
  | (k', v) :: d' => if decide (k = k') then Some v else dict_get k d'
  end.

(** [k in d] *)
Definition dict_has (k : K) (d : dict) : bool := has (dict_get k d).

(** [d[k] = v] *)
Fixpoint dict_set (k : K) (v : V) (d : dict) : dict :=
  match d with
  | [] => [(k, v)]
  | (k', v') :: d' =>
      if decide (k = k') then (k', v) :: d' else (k', v') :: dict_set k v d'
  end.

Definition dict_keys (d : dict) : list K := map fst d.

Definition dict_wf (d : dict) : Prop := NoDup (dict_keys d).
End Dict.

Arguments dict K V : clear implicits.

(** ** get_times *)

(** The per-thread variables of the loop over [threads[thread]]. *)
Record thread_state : Type := ThreadState {
  total_time : Z;
  all_events : list trace_event;
  event_times : dict string Z;
  seen : gset string
}.

Definition init_thread : thread_state := ThreadState 0 [] [] ∅.

(** The condition of the inner [if], with Python's short-circuit [and]. *)
Definition is_child (curr event : trace_event) (low high : Z)
    (seen : gset string) : result bool :=
  t1 ← getitem "ts" (ts curr);
  if t1 >? low then
    t2 ← getitem "ts" (ts curr);
    if t2 <? high then
      if decide (text curr ∉ seen) then
        d ← getitem "dur" (dur curr);
        de ← getitem "dur" (dur event);
        Ok (d <? de)
      else Ok false
    else Ok false
  else Ok false.

(** [for i in range(len(all_events) - 1, -1, -1)]: [prior] is the list of
    the processed events in the order the loop visits them, which is
    [all_events] reversed. *)
Fixpoint scan (prior : list trace_event) (event : trace_event) (low high : Z)
    (seen : gset string) (self_time : Z) : result (gset string * Z) :=
  match prior with
  | [] => Ok (seen, self_time)
  | curr :: prior' =>
      b ← is_child curr event low high seen;
      if (b : bool) then
        d ← getitem "dur" (dur curr);
        scan prior' event low high ({[text curr]} ∪ seen) (self_time - d)
      else scan prior' event low high seen self_time
  end.

(** Lines 231-243, [if total_time > 0: ...]: the overlap subtraction, from
    the self-time so far to the new [seen] and the new self-time. *)
Definition overlap_subtraction (st : thread_state) (event : trace_event)
    (self_time : Z) : result (gset string * Z) :=
  if total_time st >? 0 then
    low ← getitem "ts" (ts event);
    d ← getitem "dur" (dur event);
    let high := low + d in
    scan (rev (all_events st)) event low high (seen st) self_time
  else Ok (seen st, self_time).

(** [categories[event["name"]] = event["cat"]]: Python evaluates the right
    hand side before the subscript of the target. *)
Definition record_category (categories : dict string string)
    (event : trace_event) : result (dict string string) :=
  c ← getitem "cat" (cat event);
  n ← getitem "name" (name event);
  Ok (dict_set n c categories).

(** Lines 246-251. *)
Definition accumulate (event_times : dict string Z) (event : trace_event)
    (self_time : Z) : result (dict string Z) :=
  if negb (has (name event)) then Raise IncorrectProfileFormatError
  else
    event_type ← getitem "name" (name event);
    let event_times :=
      if negb (dict_has event_type event_times)
      then dict_set event_type 0 event_times
      else event_times in
    old ← getitem event_type (dict_get event_type event_times);
    Ok (dict_set event_type (old + self_time) event_times).

(** The body of [for event in threads[thread]]. *)
Definition process_event (s : dict string string * thread_state)
    (event : trace_event) : result (dict string string * thread_state) :=
  let '(categories, st) := s in
  if negb (has (ph event)) then Raise IncorrectProfileFormatError
  else
    p ← getitem "ph" (ph event);
    if String.eqb p "X" then
      if negb (has (ts event)) || negb (has (dur event))
      then Raise IncorrectProfileFormatError
      else
        self_time ← getitem "dur" (dur event);
        categories ← record_category categories event;
        '(seen', self_time) ← overlap_subtraction st event self_time;
        let all_events' := all_events st ++ [event] in
        let total_time' := total_time st + self_time in
        event_times' ← accumulate (event_times st) event self_time;
        Ok (categories, ThreadState total_time' all_events' event_times' seen')
    else Ok (categories, st).

(** The body of [for thread in threads], on the item [(thread,
    threads[thread])] of the dictionary. *)
Definition process_thread
    (s : dict thread_id (dict string Z) * dict string string)
    (entry : thread_id * list trace_event)
  : result (dict thread_id (dict string Z) * dict string string) :=
  let '(all_threads, categories) := s in
  let '(thread, events) := entry in
  '(categories, st) ← foldM process_event (categories, init_thread) events;
  Ok (dict_set thread (event_times st) all_threads, categories).

Definition get_times (threads : dict thread_id (list trace_event))
  : result (dict thread_id (dict string Z) * dict string string) :=
  foldM process_thread ([], []) threads.

(** ** get_data *)

(** The decoded document, after [json.load]: a JSON object whose
    [otherData], when there, is an object, whose [build_id], when there, is
    a string, and whose [traceEvents], when there, is a list of objects.
    A file that decodes to a value of another shape (a number, an object
    whose [otherData] is a number) is outside this type: on such a file
    the program may raise a [TypeError], which the handler of [get_data]
    wraps as it does the others. *)
Record other_data : Type := OtherData {
  build_id : option string
}.

Record document : Type := Document {
  otherData : option other_data;
  traceEvents : option (list trace_event)
}.

(** The body of [for line in data["traceEvents"]].  [cats] maps a category
    to the names seen with it; [threads] maps a thread to its records. *)
Definition get_data_line
    (s : dict string (list string) * dict thread_id (list trace_event))
    (line : trace_event)
  : result (dict string (list string) * dict thread_id (list trace_event)) :=
  let '(cats, threads) := s in
  cats ←
    (if has (cat line) then
       c ← getitem "cat" (cat line);
       let cats :=
         if negb (dict_has c cats) then dict_set c [] cats else cats in
       names ← getitem c (dict_get c cats);
       n ← getitem "name" (name line);
       Ok (dict_set c (names ++ [n]) cats)
     else Ok cats);
  if negb (has (tid line)) then Raise IncorrectProfileFormatError
  else
    a ← getitem "tid" (tid line);
    let threads :=
      if negb (dict_has a threads) then dict_set a [] threads else threads in
    events ← getitem_at a (dict_get a threads);
    Ok (cats, dict_set a (events ++ [line]) threads).

(** The statements inside the outer [try].  [file] is what [json.load]
    yields, [None] when it raises (the file is not gzip, or not JSON). *)
Definition get_data_body (file : option document)
  : result (string * dict thread_id (list trace_event)) :=
  match file with
  | None => Raise IncorrectProfileFormatError
  | Some data =>
      if negb (has (otherData data)) || negb (has (traceEvents data))
      then Raise MissingTopLevelError
      else
        other ← getitem "otherData" (otherData data);
        if negb (has (build_id other)) then Raise IncorrectProfileFormatError
        else
          id ← getitem "build_id" (build_id other);
          lines ← getitem "traceEvents" (traceEvents data);
          '(_, threads) ← foldM get_data_line ([], []) lines;
          Ok (id, threads)
  end.

(** [except Exception as exc: raise UnableToUnzipFileError() from exc] *)
Definition get_data (file : option document)
  : result (string * dict thread_id (list trace_event)) :=
  match get_data_body file with
  | Ok res => Ok res
  | Raise exc => Raise (UnableToUnzipFileError exc)
  end.

(** ** create_event_objects *)

Definition prec : Z := 53.
Definition emax : Z := 1024.

(** [float(n)]: the nearest binary64 value, ties to even; an
    [OverflowError] when [n] is too large. *)
Definition float_of_int (n : Z) : result spec_float :=
  match binary_normalize prec emax n 0 false with
  | S754_infinity _ => Raise OverflowError
  | f => Ok f
  end.

Definition million : spec_float :=
  Eval vm_compute in binary_normalize prec emax 1000000 0 false.

Record output_record : Type := OutputRecord {
  EVENT_NAME : string;
  CATEGORY : string;
  THREAD : thread_id;
  TIME_TAKEN : spec_float
}.

(** The body of [for data in all_threads[line]]. *)
Definition create_event_object (categories : dict string string)
    (line : thread_id) (objs : list output_record) (entry : string * Z)
  : result (list output_record) :=
  let '(data, time) := entry in
  category ← getitem data (dict_get data categories);
  f ← float_of_int time;
  Ok (objs ++ [OutputRecord data category line (SFdiv prec emax f million)]).

(** The body of [for line in all_threads], on the item [(line,
    all_threads[line])]. *)
Definition create_thread_objects (categories : dict string string)
    (objs : list output_record) (entry : thread_id * dict string Z)
  : result (list output_record) :=
  let '(line, times) := entry in
  foldM (create_event_object categories line) objs times.

Definition create_event_objects
    (data : dict thread_id (dict string Z) * dict string string)
  : result (list output_record) :=
  let '(all_threads, categories) := data in
  foldM (create_thread_objects categories) [] all_threads.

(** ** check_path and the job name

    [check_path] and [main] hand two patterns to [re].  A pattern is a
    [regex]; [matches] is the language of a pattern, and [re_match] and
    [re_search] decide, by derivatives, what the two calls decide:
    [re.match] succeeds when some prefix of the string is in the language,
    and the span of [re.search] starts at the leftmost position from which
    [re.match] succeeds.  A string is the list of its characters. *)

Inductive regex : Type :=
| Void
| Eps
| Chr (c : ascii)
| AnyChar
| Range (lo hi : ascii)
| Cat (r1 r2 : regex)
| Alt (r1 r2 : regex)
| Star (r : regex).

Definition newline : ascii := "010"%char.

(** [c] is in the class [[lo-hi]]. *)
Definition in_range (lo hi c : ascii) : bool :=
  (nat_of_ascii lo <=? nat_of_ascii c)%nat
  && (nat_of_ascii c <=? nat_of_ascii hi)%nat.

(** The dot matches any character but the newline. *)
Inductive matches : regex -> list ascii -> Prop :=
| matches_Eps : matches Eps []
| matches_Chr c : matches (Chr c) [c]
| matches_AnyChar c : c <> newline -> matches AnyChar [c]
| matches_Range lo hi c : in_range lo hi c = true -> matches (Range lo hi) [c]
| matches_Cat r1 r2 w1 w2 :
    matches r1 w1 -> matches r2 w2 -> matches (Cat r1 r2) (w1 ++ w2)
| matches_Alt_l r1 r2 w : matches r1 w -> matches (Alt r1 r2) w
| matches_Alt_r r1 r2 w : matches r2 w -> matches (Alt r1 r2) w
| matches_Star_nil r : matches (Star r) []
| matches_Star_app r w1 w2 :
    matches r w1 -> matches (Star r) w2 -> matches (Star r) (w1 ++ w2).

Fixpoint nullable (r : regex) : bool :=
  match r with
  | Void | Chr _ | AnyChar | Range _ _ => false
  | Eps | Star _ => true
  | Cat r1 r2 => nullable r1 && nullable r2
  | Alt r1 r2 => nullable r1 || nullable r2
  end.

Fixpoint deriv (c : ascii) (r : regex) : regex :=
  match r with
  | Void | Eps => Void
  | Chr c' => if decide (c = c') then Eps else Void
  | AnyChar => if decide (c = newline) then Void else Eps
  | Range lo hi => if in_range lo hi c then Eps else Void
  | Cat r1 r2 =>
      if nullable r1 then Alt (Cat (deriv c r1) r2) (deriv c r2)
      else Cat (deriv c r1) r2
  | Alt r1 r2 => Alt (deriv c r1) (deriv c r2)
  | Star r1 => Cat (deriv c r1) (Star r1)
  end.

(** [re.match(r, s) is not None] *)
Fixpoint re_match (r : regex) (s : list ascii) : bool :=
  nullable r ||
  match s with
  | [] => false
  | c :: s' => re_match (deriv c r) s'
  end.

(** [re.search(r, s).span()[0]], [None] when there is no match. *)
Fixpoint re_search (r : regex) (s : list ascii) : option nat :=
  if re_match r s then Some 0%nat
  else match s with
       | [] => None
       | _ :: s' => S <$> re_search r s'
       end.

(** The pattern of a text without special characters. *)
Fixpoint literal (s : string) : regex :=
  match s with
  | EmptyString => Eps
  | String c s' => Cat (Chr c) (literal s')
  end.

(** ["prod/tensorflow/rel.*/profile.json.gz"] *)
Definition check_path_regex : regex :=
  Cat (literal "prod/tensorflow/rel")
      (Cat (Star AnyChar)
           (Cat (literal "/profile")
                (Cat AnyChar (Cat (literal "json")
                                  (Cat AnyChar (literal "gz")))))).

(** The truth value of what [check_path] returns. *)
Definition check_path (file_name : string) : bool :=
  re_match check_path_regex (list_ascii_of_string file_name).

(** ["/[0-9].*"] *)
Definition job_regex : regex :=
  Cat (Chr "/"%char) (Cat (Range "0"%char "9"%char) (Star AnyChar)).

(** Lines 101-106 of [main]: the job is the file name up to the first
    slash that a digit follows; [None] when [re.search] finds nothing. *)
Definition job_name (file_name : string) : option string :=
  index ← re_search job_regex (list_ascii_of_string file_name);
  Some (substring 0 index file_name).

Definition is_digit (c : ascii) : bool := in_range "0"%char "9"%char c.

Definition no_newline (s : string) : Prop :=
  Forall (fun c => c <> newline) (list_ascii_of_string s).

(** ** main

    What [main] does once the clients of logging, storage and BigQuery are
    there: their calls are taken to answer without an exception.  [name] is
    [cloud_event.data["name"]], [None] without the key; [file] is what
    [json.load] gives for the blob of that name; [today] is the text of
    [datetime.date.today()].  A run is the list of its effects, in order,
    and the way it ends.  The call of line 103, whose closing quote is
    missing, is read with the quote. *)

(** An object of [create_event_objects] with the three keys [main] adds. *)
Record row : Type := Row {
  OBJ : output_record;
  BUILD_ID : string;
  JOB_NAME : string;
  DATE_CREATED : string
}.

Inductive effect : Type :=
| LogText (text severity : string)
| InsertRow (r : row).

(** [not l] for a list. *)
Definition falsy {A} (l : list A) : bool :=
  match l with
  | [] => true
  | _ :: _ => false
  end.

Definition main (name : option string) (file : option document)
    (today : string) : list effect * result unit :=
  let connected :=
    LogText "Successfully connected to GCP Logging Client" "INFO" in
  let log := [connected; connected] in
  match name with
  | None => (log ++ [LogText "No filename was found" "WARNING"], Ok tt)
  | Some file_name =>
      if negb (check_path file_name) then
        (log ++ [LogText
                   "The current file is not a build profile according to its path"
                   "INFO"], Ok tt)
      else
        let log := log ++ [LogText "Build profile found" "INFO"] in
        match re_search job_regex (list_ascii_of_string file_name) with
        | None => (log ++ [LogText "Job name is not valid" "WARNING"], Ok tt)
        | Some index =>
            let job := substring 0 index file_name in
            match get_data file with
            | Raise exc => (log, Raise exc)
            | Ok res =>
                let build_id := fst res in
                let threads := snd res in
                match get_times threads with
                | Raise exc => (log, Raise exc)
                | Ok all_threads =>
                    if falsy [inl (fst all_threads); inr (snd all_threads)]
                    then
                      (log ++ [LogText
                                 "Profile had no completed action events or wasn't in correct format"
                                 "WARNING"], Ok tt)
                    else
                      match create_event_objects all_threads with
                      | Raise exc =>
                          (log ++ [LogText "Unable to access Bigquery client"
                                           "WARNING"], Raise exc)
                      | Ok objs =>
                          (log ++ map (fun obj =>
                                         InsertRow (Row obj build_id job today))
                                      objs, Ok tt)
                      end
                end
            end
        end
  end.

(** The rows a run inserts, in order. *)
Definition inserted (effects : list effect) : list row :=
  flat_map (fun e => match e with InsertRow r => [r] | LogText _ _ => [] end)
           effects.

(** ** Views of a run used to state the properties

    None of these is used by the program: they name what a run does, and
    the lemmas below tie each of them to the functions above. *)

(** The event has a [ph] field equal to ["X"]. *)
Definition is_complete (event : trace_event) : bool :=
  match ph event with
  | Some p => String.eqb p "X"
  | None => false
  end.

(** The event has a [ph] field different from ["X"]. *)
Definition is_other_phase (event : trace_event) : bool :=
  match ph event with
  | Some p => negb (String.eqb p "X")
  | None => false
  end.

(** The events a scan subtracts, in the order it meets them. *)
Fixpoint scan_sources (prior : list trace_event) (event : trace_event)
    (low high : Z) (seen : gset string) : list trace_event :=
  match prior with
  | [] => []
  | curr :: prior' =>
      match is_child curr event low high seen with
      | Ok true =>
          curr :: scan_sources prior' event low high ({[text curr]} ∪ seen)
      | Ok false => scan_sources prior' event low high seen
      | Raise _ => []
      end
  end.

(** The events subtracted from [event] when it is processed in [st]. *)
Definition sources_of (st : thread_state) (event : trace_event)
  : list trace_event :=
  if is_complete event && (total_time st >? 0) then
    match ts event, dur event with
    | Some low, Some d =>
        scan_sources (rev (all_events st)) event low (low + d) (seen st)
    | _, _ => []
    end
  else [].

Definition sum_dur (l : list trace_event) : Z :=
  foldr (fun c acc => default 0 (dur c) + acc) 0 l.

(** The subtraction log of a timeline run from [s]: each Complete event in
    arrival order, with the events subtracted from it. *)
Fixpoint subtractions (s : dict string string * thread_state)
    (events : list trace_event) : list (trace_event * list trace_event) :=
  match events with
  | [] => []
  | event :: events' =>
      match process_event s event with
      | Ok s' =>
          (if is_complete event then [(event, sources_of (snd s) event)]
           else []) ++ subtractions s' events'
      | Raise _ => []
      end
  end.

(** The sum of the self-times a log stands for. *)
Definition log_total (log : list (trace_event * list trace_event)) : Z :=
  foldr (fun entry acc =>
           default 0 (dur (fst entry)) - sum_dur (snd entry) + acc) 0 log.

(** The entry of [n] in a thread's table after the events of a log, from
    the entry [init] before them. *)
Definition table_entry_step (n : string) (acc : option Z)
    (entry : trace_event * list trace_event) : option Z :=
  if bool_decide (name (fst entry) = Some n)
  then Some (default 0 acc + (default 0 (dur (fst entry)) - sum_dur (snd entry)))
  else acc.

Definition table_entry (n : string) (init : option Z)
    (log : list (trace_event * list trace_event)) : option Z :=
  fold_left (table_entry_step n) log init.

(** The category of the last Complete event named [n] in [events], [acc]
    when there is none. *)
Definition category_step (n : string) (acc : option string) (e : trace_event)
  : option string :=
  if is_complete e && bool_decide (name e = Some n) then cat e else acc.

Definition last_category (n : string) (events : list trace_event)
  : option string :=
  fold_left (category_step n) events None.

(** All the events [get_times] visits, in the order it visits them. *)
Definition visited (threads : dict thread_id (list trace_event))
  : list trace_event :=
  concat (map snd threads).

(** The (thread, name, microseconds) entries of a self-time table, in
    iteration order. *)
Definition table_entries (all_threads : dict thread_id (dict string Z))
  : list (thread_id * string * Z) :=
  concat (map (fun entry : thread_id * dict string Z =>
                 map (fun nv : string * Z => (fst entry, fst nv, snd nv))
                     (snd entry)) all_threads).

(** [o] is the output record of the table entry [(thread, name, time)]. *)
Definition is_record_of (categories : dict string string)
    (entry : thread_id * string * Z) (o : output_record) : Prop :=
  THREAD o = fst (fst entry) /\
  EVENT_NAME o = snd (fst entry) /\
  dict_get (snd (fst entry)) categories = Some (CATEGORY o) /\
  exists f, float_of_int (snd entry) = Ok f /\
            TIME_TAKEN o = SFdiv prec emax f million.

(** The sum of the self-times of a thread's table. *)
Definition sum_values (d : dict string Z) : Z :=
  foldr (fun kv acc => snd kv + acc) 0 d.

(** The event [c] lies inside [event] as the scan asks: its timestamp is
    strictly inside the interval of [event] and it is strictly shorter. *)
Definition nested_in (c event : trace_event) : Prop :=
  exists tc dc t d,
    ts c = Some tc /\ dur c = Some dc /\
    ts event = Some t /\ dur event = Some d /\
    t < tc /\ tc < t + d /\ dc < d.

(** What [get_times] asks of an event: a [ph] field, and for a Complete
    event the fields [name], [cat], [ts] and [dur]. *)
Definition well_formed (event : trace_event) : Prop :=
  is_Some (ph event) /\
  (is_complete event = true ->
   is_Some (name event) /\ is_Some (cat event) /\
   is_Some (ts event) /\ is_Some (dur event)).

(** ** Sample inputs *)

(** [repr] of a string without quote or backslash, and of an integer. *)
Definition repr_str (s : string) : string := "'" +:+ s +:+ "'".

Definition repr_int (n : Z) : string := NilZero.string_of_int (Z.to_int n).

Definition repr_scalar (v : scalar) : string :=
  match v with
  | Int n => repr_int n
  | Str s => repr_str s
  end.

Definition item {A} (key : string) (repr : A -> string) (field : option A)
  : list string :=
  match field with
  | Some v => [repr_str key +:+ ": " +:+ repr v]
  | None => []
  end.

(** The decoded object whose keys are the fields given, in the order
    [name], [cat], [ph], [ts], [dur], [tid], and no other key: its text is
    what [str] prints for that dict. *)
Definition event_of (n c p : option string) (t d : option Z)
    (i : option thread_id) : trace_event :=
  TraceEvent n c p t d i
    ("{" +:+ String.concat ", "
               (item "name" repr_str n ++ item "cat" repr_str c
                ++ item "ph" repr_str p ++ item "ts" repr_int t
                ++ item "dur" repr_int d ++ item "tid" repr_scalar i)
         +:+ "}").

(** A Complete event of thread 1. *)
Definition complete (n c : string) (t d : Z) : trace_event :=
  event_of (Some n) (Some c) (Some "X") (Some t) (Some d) (Some (Int 1)).

(** A begin event (phase ["B"]) of thread 1, without [dur]. *)
Definition begin (n c : string) (t : Z) : trace_event :=
  event_of (Some n) (Some c) (Some "B") (Some t) None (Some (Int 1)).

(** The records of [complete n c t d] with the keys in another order: the
    same six fields, another text. *)
Definition complete_reordered (n c : string) (t d : Z) : trace_event :=
  TraceEvent (Some n) (Some c) (Some "X") (Some t) (Some d) (Some (Int 1))
    ("{" +:+ String.concat ", "
               [repr_str "ph" +:+ ": " +:+ repr_str "X";
                repr_str "name" +:+ ": " +:+ repr_str n;
                repr_str "cat" +:+ ": " +:+ repr_str c;
                repr_str "ts" +:+ ": " +:+ repr_int t;
                repr_str "dur" +:+ ": " +:+ repr_int d;
                repr_str "tid" +:+ ": " +:+ repr_int 1]
         +:+ "}").

Definition profile (lines : list trace_event) : option document :=
  Some (Document (Some (OtherData (Some "build"))) (Some lines)).

(** * Properties *)

(** ** The monad and the dictionaries *)

Lemma foldM_app {A B} (f : A -> B -> result A) (a : A) (l1 l2 : list B) :
  foldM f a (l1 ++ l2) = foldM f a l1 ≫= fun a' => foldM f a' l2.
Proof.
  revert a. induction l1 as [|x l1 IH]; intros a; simpl; [done|].
  destruct (f a x) as [a'|err]; simpl; [apply IH | done].
Qed.

Section DictFacts.
Context {K V : Type} `{EqDecision K}.
Implicit Types (d : dict K V) (k : K) (v : V).

Lemma dict_get_set_eq d k v : dict_get k (dict_set k v d) = Some v.
Proof.
  induction d as [|[k' v'] d IH]; simpl.
  - by rewrite decide_True.
  - destruct (decide (k = k')) as [->|Hne]; simpl.
    + by rewrite decide_True.
    + by rewrite decide_False.
Qed.

Lemma dict_get_set_ne d k k' v :
  k' <> k -> dict_get k' (dict_set k v d) = dict_get k' d.
Proof.
  intros Hne. induction d as [|[k0 v0] d IH]; simpl.
  - by rewrite decide_False.
  - destruct (decide (k = k0)) as [->|Hk]; simpl.
    + by rewrite !decide_False.
    + by rewrite IH.
Qed.

Lemma dict_keys_set d k v :
  dict_keys (dict_set k v d) =
  if dict_has k d then dict_keys d else dict_keys d ++ [k].
Proof.
  unfold dict_has. induction d as [|[k' v'] d IH]; simpl; [done|].
  destruct (decide (k = k')) as [->|Hk]; simpl; [done|].
  rewrite IH. by destruct (dict_get k d).
Qed.

Lemma dict_has_keys d k : dict_has k d = true <-> k ∈ dict_keys d.
Proof.
  unfold dict_has. induction d as [|[k' v'] d IH]; simpl.
  - split; [discriminate | by intros ?%elem_of_nil].
  - rewrite elem_of_cons. destruct (decide (k = k')) as [->|Hk]; simpl.
    + tauto.
    + rewrite IH. tauto.
Qed.

Lemma dict_has_set d k k' v :
  dict_has k' (dict_set k v d) = true <-> k' = k \/ dict_has k' d = true.
Proof.
  unfold dict_has. destruct (decide (k' = k)) as [->|Hne].
  - rewrite dict_get_set_eq. simpl. tauto.
  - rewrite dict_get_set_ne by done. split; [tauto | by intros [|]].
Qed.

Lemma dict_wf_set d k v : dict_wf d -> dict_wf (dict_set k v d).
Proof.
  unfold dict_wf. intros Hwf. rewrite dict_keys_set.
  destruct (dict_has k d) eqn:Hk; [done|].
  apply NoDup_app. split_and!; [done | | apply NoDup_singleton].
  intros x Hx ->%list_elem_of_singleton.
  apply dict_has_keys in Hx. congruence.
Qed.

Lemma dict_get_elem_of d k v : dict_get k d = Some v -> (k, v) ∈ d.
Proof.
  induction d as [|[k' v'] d IH]; simpl; [discriminate|].
  destruct (decide (k = k')) as [->|Hk].
  - intros [= ->]. apply elem_of_cons. by left.
  - intros Hd. apply elem_of_cons. right. by apply IH.
Qed.

End DictFacts.

(** ** Events that are not Complete *)

Lemma process_event_other_phase s event p :
  ph event = Some p -> p <> "X" -> process_event s event = Ok s.
Proof.
  intros Hph Hp. destruct s as [categories st]. unfold process_event.
  rewrite Hph. simpl. by apply String.eqb_neq in Hp as ->.
Qed.

(** C1: the child C (ts 10, dur 20) followed by the parent P (ts 0,
    dur 100) on one thread gives the self-times C = 20 and P = 80, whatever
    the thread, the categories, the records' own tid fields and their
    texts are. *)
Theorem get_times_child_then_parent (thread : thread_id) (cC cP : string)
    (iC iP : option thread_id) (textC textP : string) :
  get_times
    [(thread,
      [TraceEvent (Some "C") (Some cC) (Some "X") (Some 10) (Some 20) iC textC;
       TraceEvent (Some "P") (Some cP) (Some "X") (Some 0) (Some 100) iP textP])]
  = Ok ([(thread, [("C", 20); ("P", 80)])], [("C", cC); ("P", cP)]).
Proof.
  unfold get_times, foldM, process_thread, process_event, overlap_subtraction.
  simpl. unfold is_child. simpl.
  rewrite decide_True by set_solver. reflexivity.
Qed.

(** ** The scan *)

Lemma is_child_true curr event low high seen :
  is_child curr event low high seen = Ok true ->
  exists tc dc de,
    ts curr = Some tc /\ dur curr = Some dc /\ dur event = Some de /\
    low < tc /\ tc < high /\ (text curr ∉ seen) /\ dc < de.
Proof.
  unfold is_child.
  destruct (ts curr) as [tc|]; simpl; [|discriminate].
  destruct (tc >? low) eqn:Hlow; [|discriminate]. simpl.
  destruct (tc <? high) eqn:Hhigh; [|discriminate].
  destruct (decide (text curr ∉ seen)) as [Hseen|]; [|discriminate].
  destruct (dur curr) as [dc|]; simpl; [|discriminate].
  destruct (dur event) as [de|]; simpl; [|discriminate].
  intros [= Hlt]. exists tc, dc, de. split_and!; try done; lia.
Qed.

Lemma scan_sources_spec prior event low high seen self_time seen' self_time' :
  scan prior event low high seen self_time = Ok (seen', self_time') ->
  let sources := scan_sources prior event low high seen in
  seen' = list_to_set (map text sources) ∪ seen /\
  self_time' = self_time - sum_dur sources /\
  NoDup (map text sources) /\
  (forall c, c ∈ sources -> (text c ∉ seen) /\ c ∈ prior).
Proof.
  revert seen self_time.
  induction prior as [|curr prior IH]; intros seen self_time; simpl.
  - intros [= <- <-]. split_and!; [set_solver | lia | constructor |].
    by intros c ?%elem_of_nil.
  - destruct (is_child curr event low high seen) as [[|]|err] eqn:Hchild;
      simpl; [| |discriminate].
    + destruct (is_child_true _ _ _ _ _ Hchild)
        as (tc & dc & de & _ & Hdc & _ & _ & _ & Hfresh & _).
      rewrite Hdc. simpl. intros Hscan.
      destruct (IH _ _ Hscan) as (Hseen & Hself & Hnodup & Hsrc).
      split_and!.
      * rewrite Hseen. set_solver.
      * rewrite Hself. unfold sum_dur. simpl. lia.
      * cbn [map]. constructor; [|done].
        intros (c & Hc & Hin)%list_elem_of_fmap. apply Hsrc in Hin. set_solver.
      * intros c [->|Hin]%elem_of_cons.
        -- split; [done | apply elem_of_cons; by left].
        -- apply Hsrc in Hin. split; [set_solver | apply elem_of_cons; tauto].
    + intros Hscan.
      destruct (IH _ _ Hscan) as (Hseen & Hself & Hnodup & Hsrc).
      split_and!; try done.
      intros c Hin. apply Hsrc in Hin. split; [tauto | apply elem_of_cons; tauto].
Qed.

Lemma scan_sources_child prior event low high seen c :
  c ∈ scan_sources prior event low high seen ->
  exists tc dc de,
    ts c = Some tc /\ dur c = Some dc /\ dur event = Some de /\
    low < tc /\ tc < high /\ dc < de.
Proof.
  revert seen. induction prior as [|curr prior IH]; intros seen; simpl.
  - by intros ?%elem_of_nil.
  - destruct (is_child curr event low high seen) as [[|]|err] eqn:Hchild.
    + intros [->|Hin]%elem_of_cons; [|by eapply IH].
      destruct (is_child_true _ _ _ _ _ Hchild)
        as (tc & dc & de & ? & ? & ? & ? & ? & _ & ?).
      exists tc, dc, de. done.
    + apply IH.
    + by intros ?%elem_of_nil.
Qed.

(** ** One step of the per-thread loop *)

Lemma process_event_skip s event s' :
  is_complete event = false -> process_event s event = Ok s' -> s' = s.
Proof.
  destruct s as [categories st]. unfold process_event, is_complete.
  destruct (ph event) as [p|]; simpl; [|discriminate].
  intros ->. congruence.
Qed.

Lemma accumulate_Ok event_times event self_time event_times' :
  accumulate event_times event self_time = Ok event_times' ->
  exists n,
    name event = Some n /\
    dict_get n event_times' =
      Some (default 0 (dict_get n event_times) + self_time) /\
    (forall n', n' <> n -> dict_get n' event_times' = dict_get n' event_times) /\
    (forall n', dict_has n' event_times' = true <->
                n' = n \/ dict_has n' event_times = true).
Proof.
  unfold accumulate. destruct (name event) as [n|]; simpl; [|discriminate].
  destruct (dict_has n event_times) eqn:Hhas; simpl.
  - unfold dict_has in Hhas.
    destruct (dict_get n event_times) as [old|] eqn:Hold; [|discriminate].
    simpl. intros [= <-]. exists n. rewrite Hold. split_and!; [done| | |].
    + by rewrite dict_get_set_eq.
    + intros n' Hne. by rewrite dict_get_set_ne.
    + intros n'. rewrite dict_has_set. done.
  - rewrite dict_get_set_eq. simpl. intros [= <-]. exists n.
    unfold dict_has in Hhas.
    destruct (dict_get n event_times) as [old|] eqn:Hold; [discriminate|].
    split_and!; [done| | |].
    + by rewrite dict_get_set_eq.
    + intros n' Hne. by rewrite !dict_get_set_ne.
    + intros n'. rewrite !dict_has_set. tauto.
Qed.

Lemma process_event_complete categories st event s' :
  is_complete event = true ->
  process_event (categories, st) event = Ok s' ->
  exists n c t d seen' self_time event_times',
    name event = Some n /\ cat event = Some c /\
    ts event = Some t /\ dur event = Some d /\
    overlap_subtraction st event d = Ok (seen', self_time) /\
    accumulate (event_times st) event self_time = Ok event_times' /\
    s' = (dict_set n c categories,
          ThreadState (total_time st + self_time) (all_events st ++ [event])
                      event_times' seen').
Proof.
  unfold process_event, is_complete.
  destruct (ph event) as [p|]; simpl; [|discriminate].
  intros ->.
  destruct (ts event) as [t|]; simpl; [|discriminate].
  destruct (dur event) as [d|] eqn:Hd; simpl; [|discriminate].
  unfold record_category.
  destruct (cat event) as [c|]; simpl; [|discriminate].
  destruct (name event) as [n|] eqn:Hn; simpl; [|discriminate].
  destruct (overlap_subtraction st event d) as [[seen' self_time]|err] eqn:Hself;
    simpl; [|discriminate].
  destruct (accumulate (event_times st) event self_time)
    as [event_times'|err] eqn:Hacc; simpl; [|discriminate].
  intros [= <-]. by exists n, c, t, d, seen', self_time, event_times'.
Qed.

Lemma overlap_subtraction_sources st event d seen' self_time :
  is_complete event = true -> dur event = Some d ->
  overlap_subtraction st event d = Ok (seen', self_time) ->
  seen' = list_to_set (map text (sources_of st event)) ∪ seen st /\
  self_time = d - sum_dur (sources_of st event) /\
  NoDup (map text (sources_of st event)) /\
  (forall c, c ∈ sources_of st event ->
             (text c ∉ seen st) /\ c ∈ all_events st).
Proof.
  intros Hx Hd. unfold overlap_subtraction, sources_of. rewrite Hx, Hd. simpl.
  destruct (total_time st >? 0).
  - destruct (ts event) as [low|]; simpl; [|discriminate].
    intros Hscan. apply scan_sources_spec in Hscan.
    destruct Hscan as (Hseen & Hself & Hnodup & Hsrc).
    split_and!; try done.
    intros c Hc. apply Hsrc in Hc.
    by rewrite list_elem_of_In, <- in_rev, <- list_elem_of_In in Hc.
  - intros [= <- <-]. split_and!; [set_solver | simpl; lia | constructor |].
    by intros c ?%elem_of_nil.
Qed.

(** ** The subtraction log of a thread *)

Lemma NoDup_concat_lookup {A} (ls : list (list A)) (i j : nat) (l1 l2 : list A)
    (x : A) :
  NoDup (concat ls) -> ls !! i = Some l1 -> ls !! j = Some l2 -> i <> j ->
  x ∈ l1 -> x ∉ l2.
Proof.
  revert i j. induction ls as [|l ls IH]; intros i j Hnd Hi Hj Hij Hx1 Hx2.
  - by rewrite lookup_nil in Hi.
  - simpl in Hnd. apply NoDup_app in Hnd as (Hl & Hdisj & Hls).
    assert (Hin : forall k l' y, ls !! k = Some l' -> y ∈ l' -> y ∈ concat ls).
    { intros k l' y Hk Hy. apply list_elem_of_In, in_concat. exists l'.
      split; apply list_elem_of_In; [|done].
      by eapply list_elem_of_lookup_2. }
    destruct i as [|i], j as [|j]; simpl in Hi, Hj; simplify_eq.
    + eapply Hdisj; eauto.
    + eapply Hdisj; eauto.
    + eapply (IH i j); eauto.
Qed.

Lemma log_total_cons entry log :
  log_total (entry :: log) =
  default 0 (dur (fst entry)) - sum_dur (snd entry) + log_total log.
Proof. reflexivity. Qed.

Lemma subtractions_invariant events categories st categories' st' :
  foldM process_event (categories, st) events = Ok (categories', st') ->
  let log := subtractions (categories, st) events in
  let used := concat (map snd log) in
  NoDup (map text used) /\
  (forall c, c ∈ used -> text c ∉ seen st) /\
  seen st' = list_to_set (map text used) ∪ seen st /\
  total_time st' = total_time st + log_total log /\
  map fst log = List.filter is_complete events.
Proof.
  revert categories st.
  induction events as [|event events IH]; intros categories st;
    cbn [foldM subtractions].
  - intros [= <- <-]. simpl.
    split_and!; [constructor | | set_solver | lia | done].
    by intros c ?%elem_of_nil.
  - destruct (process_event (categories, st) event) as [[categories1 st1]|err]
      eqn:Hstep; [|intros [=]].
    intros Hrun. change (foldM process_event (categories1, st1) events
                         = Ok (categories', st')) in Hrun. destruct (IH _ _ Hrun) as (Hnd & Hfresh & Hseen & Htot & Hlog).
    destruct (is_complete event) eqn:Hx.
    + destruct (process_event_complete _ _ _ _ Hx Hstep)
        as (n & c & t & d & seen1 & self_time & event_times1
            & _ & _ & _ & Hd & Hself & _ & [= -> ->]).
      destruct (overlap_subtraction_sources _ _ _ _ _ Hx Hd Hself)
        as (Hseen1 & Hself1 & Hnd1 & Hsrc).
      subst seen1 self_time.
      cbn [app map snd fst concat seen total_time List.filter] in *.
      rewrite Hx, map_app. split_and!.
      * apply NoDup_app. split_and!; [done| |done].
        intros x Hx1 (c2 & -> & Hx2)%list_elem_of_fmap.
        apply Hfresh in Hx2. set_solver.
      * intros x [Hx1|Hx2]%elem_of_app; [by apply Hsrc|].
        apply Hfresh in Hx2. set_solver.
      * rewrite Hseen, list_to_set_app_L. set_solver.
      * rewrite Htot, log_total_cons. cbn [fst snd]. rewrite Hd. simpl. lia.
      * cbn [map fst]. by rewrite Hlog.
    + apply (process_event_skip _ _ _ Hx) in Hstep as [= -> ->].
      cbn [app List.filter]. rewrite Hx. split_and!; done.
Qed.

Lemma event_times_from_log n events : forall categories st s',
  foldM process_event (categories, st) events = Ok s' ->
  dict_get n (event_times (snd s')) =
  table_entry n (dict_get n (event_times st))
              (subtractions (categories, st) events).
Proof.
  induction events as [|event events IH]; intros categories st s';
    cbn [foldM subtractions].
  - by intros [= <-].
  - destruct (process_event (categories, st) event) as [[categories1 st1]|err]
      eqn:Hstep; [|intros [=]].
    cbn [mbind result_bind]. intros Hrun. rewrite (IH _ _ _ Hrun).
    destruct (is_complete event) eqn:Hx.
    + cbn [app snd]. unfold table_entry. cbn [fold_left]. f_equal.
      destruct (process_event_complete _ _ _ _ Hx Hstep)
        as (n0 & c & t & d & seen1 & self_time & event_times1
            & Hn0 & _ & _ & Hd & Hself & Hacc & [= -> ->]).
      destruct (overlap_subtraction_sources _ _ _ _ _ Hx Hd Hself)
        as (_ & -> & _ & _).
      apply accumulate_Ok in Hacc as (n1 & Hn1 & Hget & Hother & _).
      unfold table_entry_step. cbn [fst snd event_times]. rewrite Hd.
      simplify_eq. case_bool_decide as Hn; simplify_eq.
      * by rewrite Hget.
      * apply Hother. congruence.
    + by apply (process_event_skip _ _ _ Hx) in Hstep as [= -> ->].
Qed.

(** C2: within one thread, an event subtracted from a later event is never
    subtracted from any other.  The key of an event is its text
    [str(curr)]: the events subtracted from two different Complete events
    of the timeline have different texts (so the two lists share no
    event), the texts of all the subtracted events are pairwise distinct,
    the final [seen] set is exactly the set of the texts of the events
    used as subtraction sources, and the log accounts for what the thread
    returns: the running
    total is the sum over the Complete events of the duration minus the
    durations subtracted, and the entry of a name in the thread's table is
    that sum over the events of the name. *)
Theorem single_use_subtraction categories events categories' st' :
  foldM process_event (categories, init_thread) events = Ok (categories', st') ->
  let log := subtractions (categories, init_thread) events in
  (forall i j e1 s1 e2 s2 c1 c2,
      log !! i = Some (e1, s1) -> log !! j = Some (e2, s2) -> i <> j ->
      c1 ∈ s1 -> c2 ∈ s2 -> text c1 <> text c2) /\
  (forall i j e1 s1 e2 s2 c,
      log !! i = Some (e1, s1) -> log !! j = Some (e2, s2) -> i <> j ->
      c ∈ s1 -> c ∉ s2) /\
  NoDup (map text (concat (map snd log))) /\
  NoDup (concat (map snd log)) /\
  seen st' = list_to_set (map text (concat (map snd log))) /\
  map fst log = List.filter is_complete events /\
  total_time st' = log_total log /\
  (forall n, dict_get n (event_times st') = table_entry n None log).
Proof.
  intros Hrun log.
  destruct (subtractions_invariant _ _ _ _ _ Hrun)
    as (Hnd & _ & Hseen & Htot & Hlog).
  fold log in Hnd, Hseen, Htot, Hlog.
  assert (Htexts : forall i j e1 s1 e2 s2 c1 c2,
             log !! i = Some (e1, s1) -> log !! j = Some (e2, s2) -> i <> j ->
             c1 ∈ s1 -> c2 ∈ s2 -> text c1 <> text c2).
  { intros i j e1 s1 e2 s2 c1 c2 Hi Hj Hij Hc1 Hc2 Heq.
    rewrite concat_map in Hnd.
    apply (NoDup_concat_lookup (map (map text) (map snd log)) i j
             (map text s1) (map text s2) (text c1)); [done| | |done| |].
    - by rewrite !list_lookup_fmap, Hi.
    - by rewrite !list_lookup_fmap, Hj.
    - apply list_elem_of_fmap. by exists c1.
    - apply list_elem_of_fmap. by exists c2. }
  split_and!; try done.
  - intros i j e1 s1 e2 s2 c Hi Hj Hij Hc1 Hc2.
    by apply (Htexts i j e1 s1 e2 s2 c c).
  - by apply (NoDup_fmap_1 text).
  - rewrite Hseen. simpl. set_solver.
  - intros n. apply (event_times_from_log n) in Hrun. done.
Qed.

(** ** The first Complete event of a thread *)

Lemma is_other_phase_spec event :
  is_other_phase event = true <-> exists p, ph event = Some p /\ p <> "X".
Proof.
  unfold is_other_phase. destruct (ph event) as [p|].
  - rewrite negb_true_iff, String.eqb_neq. naive_solver.
  - naive_solver.
Qed.

Lemma foldM_other_phase s events :
  Forall (fun e => is_other_phase e = true) events ->
  foldM process_event s events = Ok s.
Proof.
  induction 1 as [|event events Hp _ IH]; cbn [foldM]; [done|].
  apply is_other_phase_spec in Hp as (p & Hph & Hp).
  by rewrite (process_event_other_phase s event p).
Qed.

Lemma is_other_phase_not_complete event :
  is_other_phase event = true -> is_complete event = false.
Proof.
  unfold is_other_phase, is_complete. destruct (ph event); [|done].
  by intros ->%negb_true_iff.
Qed.

Lemma subtractions_other_phase s pre events :
  Forall (fun e => is_other_phase e = true) pre ->
  subtractions s (pre ++ events) = subtractions s events.
Proof.
  induction 1 as [|event pre Hp _ IH]; cbn [app subtractions]; [done|].
  rewrite (is_other_phase_not_complete _ Hp).
  apply is_other_phase_spec in Hp as (p & Hph & Hp).
  by rewrite (process_event_other_phase s event p).
Qed.

(** The guard [total_time > 0]: with a running total that is not positive,
    nothing is subtracted and [seen] is left alone. *)
Lemma overlap_subtraction_skipped st event self_time :
  total_time st <= 0 ->
  sources_of st event = [] /\
  overlap_subtraction st event self_time = Ok (seen st, self_time).
Proof.
  intros Hle. unfold sources_of, overlap_subtraction.
  assert ((total_time st >? 0) = false) as -> by lia.
  by rewrite andb_false_r.
Qed.

Lemma process_event_first categories event n c t d :
  ph event = Some "X" -> name event = Some n -> cat event = Some c ->
  ts event = Some t -> dur event = Some d ->
  process_event (categories, init_thread) event =
  Ok (dict_set n c categories, ThreadState d [event] [(n, d)] ∅).
Proof.
  intros Hph Hn Hc Ht Hd.
  unfold process_event, record_category, overlap_subtraction, accumulate.
  rewrite Hph, Hn, Hc, Ht, Hd. simpl.
  rewrite decide_True by done. simpl. by rewrite decide_True.
Qed.

(** Events of other names leave the entry of [n] in the thread's table
    alone. *)
Lemma foldM_process_event_other_names n events : forall s s',
  Forall (fun e => is_complete e = true -> name e <> Some n) events ->
  foldM process_event s events = Ok s' ->
  dict_get n (event_times (snd s')) = dict_get n (event_times (snd s)).
Proof.
  induction events as [|event events IH]; intros s s' Hnames; cbn [foldM].
  - by intros [= <-].
  - apply Forall_cons in Hnames as [Hname Hnames].
    destruct (process_event s event) as [s1|err] eqn:Hstep; [|intros [=]].
    intros Hrun. rewrite (IH s1 s' Hnames Hrun).
    destruct (is_complete event) eqn:Hx.
    + destruct s as [categories st].
      destruct (process_event_complete _ _ _ _ Hx Hstep)
        as (n' & c & t & d & seen1 & self_time & event_times1
            & Hn' & _ & _ & _ & _ & Hacc & ->).
      apply accumulate_Ok in Hacc as (n'' & Hn'' & _ & Hother & _).
      simpl. apply Hother. specialize (Hname eq_refl). congruence.
    + by rewrite (process_event_skip _ _ _ Hx Hstep).
Qed.

(** C3: the first Complete event of a thread keeps its raw duration.
    When only events of other phases precede it, the loop reaches it with a
    running total of 0, so the scan is skipped: right after it the thread's
    table holds its duration under its name and [seen] is empty; the
    subtraction log of the whole timeline starts with this event and an
    empty list, whatever follows; and when no later Complete event has its
    name, the thread's final entry for the name is its duration.  The guard
    itself: in any state whose running total is not positive nothing is
    subtracted. *)
Theorem first_complete_event_keeps_duration categories pre event n c t d :
  Forall (fun e => is_other_phase e = true) pre ->
  ph event = Some "X" -> name event = Some n -> cat event = Some c ->
  ts event = Some t -> dur event = Some d ->
  foldM process_event (categories, init_thread) (pre ++ [event]) =
    Ok (dict_set n c categories, ThreadState d [event] [(n, d)] ∅) /\
  (forall post, exists log,
      subtractions (categories, init_thread) (pre ++ event :: post) =
      (event, []) :: log) /\
  (forall post categories' st',
      foldM process_event (categories, init_thread) (pre ++ event :: post) =
        Ok (categories', st') ->
      Forall (fun e => is_complete e = true -> name e <> Some n) post ->
      dict_get n (event_times st') = Some d) /\
  (forall st e self_time,
      total_time st <= 0 ->
      sources_of st e = [] /\
      overlap_subtraction st e self_time = Ok (seen st, self_time)).
Proof.
  intros Hpre Hph Hn Hc Ht Hd.
  pose proof (process_event_first categories event n c t d Hph Hn Hc Ht Hd)
    as Hfirst.
  split_and!.
  - rewrite foldM_app, (foldM_other_phase _ _ Hpre). cbn [mbind result_bind foldM].
    by rewrite Hfirst.
  - intros post. rewrite (subtractions_other_phase _ _ _ Hpre).
    cbn [subtractions]. rewrite Hfirst.
    assert (is_complete event = true) as ->.
    { unfold is_complete. by rewrite Hph. }
    cbn [snd]. destruct (overlap_subtraction_skipped init_thread event 0) as [-> _];
      [done|].
    eauto.
  - intros post categories' st' Hrun Hnames.
    rewrite foldM_app, (foldM_other_phase _ _ Hpre) in Hrun.
    cbn [mbind result_bind foldM] in Hrun. rewrite Hfirst in Hrun.
    cbn [mbind result_bind] in Hrun.
    pose proof (foldM_process_event_other_names n post _ _ Hnames Hrun) as Hget.
    cbn [snd event_times] in Hget. rewrite Hget.
    simpl. by rewrite decide_True.
  - intros st e self_time. apply overlap_subtraction_skipped.
Qed.

(** ** Events of another phase are skipped *)

Lemma foldM_process_event_skip s pre event post p :
  ph event = Some p -> p <> "X" ->
  foldM process_event s (pre ++ event :: post) =
  foldM process_event s (pre ++ post).
Proof.
  intros Hph Hp. rewrite !foldM_app.
  destruct (foldM process_event s pre) as [s1|err]; [|done].
  cbn [mbind result_bind foldM].
  by rewrite (process_event_other_phase s1 event p).
Qed.

Lemma process_thread_skip s thread pre event post p :
  ph event = Some p -> p <> "X" ->
  process_thread s (thread, pre ++ event :: post) =
  process_thread s (thread, pre ++ post).
Proof.
  intros Hph Hp. destruct s as [all_threads categories]. unfold process_thread.
  by rewrite (foldM_process_event_skip _ pre event post p).
Qed.

(** ** The per-name totals *)

Lemma sources_of_child st event c :
  c ∈ sources_of st event ->
  exists dc d, dur c = Some dc /\ dur event = Some d /\ dc < d.
Proof.
  unfold sources_of.
  destruct (is_complete event && (total_time st >? 0));
    [|by intros ?%elem_of_nil].
  destruct (ts event) as [low|]; [|by intros ?%elem_of_nil].
  destruct (dur event) as [d|] eqn:Hd; [|by intros ?%elem_of_nil].
  intros (tc & dc & de & _ & Hdc & Hde & _ & _ & Hlt)%scan_sources_child.
  exists dc, d. rewrite Hd in Hde. by simplify_eq.
Qed.

(** ** The categories *)

Lemma foldM_process_event_categories n events : forall categories st s',
  foldM process_event (categories, st) events = Ok s' ->
  dict_get n (fst s') = fold_left (category_step n) events (dict_get n categories).
Proof.
  induction events as [|event events IH]; intros categories st s';
    cbn [foldM fold_left].
  - by intros [= <-].
  - destruct (process_event (categories, st) event) as [[categories1 st1]|err]
      eqn:Hstep; [|intros [=]].
    intros Hrun. rewrite (IH _ _ _ Hrun). f_equal.
    unfold category_step. destruct (is_complete event) eqn:Hx.
    + destruct (process_event_complete _ _ _ _ Hx Hstep)
        as (n' & c & t & d & seen1 & self_time & event_times1
            & Hn' & Hc & _ & _ & _ & _ & [= -> _]).
      rewrite Hn', Hc. simpl. case_bool_decide as Hnn.
      * injection Hnn as ->. by rewrite dict_get_set_eq.
      * rewrite dict_get_set_ne; [done|congruence].
    + by apply (process_event_skip _ _ _ Hx) in Hstep as [= -> _].
Qed.

Lemma process_thread_Ok all_threads categories thread events s' :
  process_thread (all_threads, categories) (thread, events) = Ok s' ->
  exists categories' st',
    foldM process_event (categories, init_thread) events
      = Ok (categories', st') /\
    s' = (dict_set thread (event_times st') all_threads, categories').
Proof.
  unfold process_thread.
  destruct (foldM process_event (categories, init_thread) events)
    as [[categories' st']|err]; [|intros [=]].
  intros [= <-]. eauto.
Qed.

Lemma process_thread_Raise all_threads categories thread events err :
  foldM process_event (categories, init_thread) events = Raise err ->
  process_thread (all_threads, categories) (thread, events) = Raise err.
Proof. unfold process_thread. by intros ->. Qed.

Lemma foldM_process_thread_categories n threads : forall s s',
  foldM process_thread s threads = Ok s' ->
  dict_get n (snd s') =
  fold_left (category_step n) (visited threads) (dict_get n (snd s)).
Proof.
  induction threads as [|[thread events] threads IH];
    intros [all_threads categories] s'; cbn [foldM].
  - by intros [= <-].
  - destruct (process_thread (all_threads, categories) (thread, events))
      as [s1|err] eqn:Hthread; [|intros [=]].
    apply process_thread_Ok in Hthread as (categories1 & st1 & Hevents & ->).
    cbn [mbind result_bind]. intros Hrun. rewrite (IH _ _ Hrun).
    unfold visited. cbn [map concat snd]. rewrite fold_left_app. f_equal.
    apply (foldM_process_event_categories n) in Hevents. done.
Qed.

(** ** create_event_objects *)

Lemma create_event_object_Ok categories line objs entry objs' :
  create_event_object categories line objs entry = Ok objs' ->
  exists o, objs' = objs ++ [o] /\
            is_record_of categories (line, fst entry, snd entry) o.
Proof.
  destruct entry as [data time]. unfold create_event_object.
  destruct (dict_get data categories) as [category|] eqn:Hcat; simpl;
    [|discriminate].
  destruct (float_of_int time) as [f|err] eqn:Hf; simpl; [|discriminate].
  intros [= <-]. eexists. split; [done|].
  unfold is_record_of. simpl. split_and!; try done. by exists f.
Qed.

Lemma create_thread_objects_Ok categories line times : forall objs objs',
  foldM (create_event_object categories line) objs times = Ok objs' ->
  exists new,
    objs' = objs ++ new /\
    Forall2 (is_record_of categories)
            (map (fun nv : string * Z => (line, fst nv, snd nv)) times) new.
Proof.
  induction times as [|entry times IH]; intros objs objs'; cbn [foldM map].
  - intros [= <-]. exists []. by rewrite app_nil_r.
  - destruct (create_event_object categories line objs entry) as [objs1|err]
      eqn:Hstep; [|intros [=]].
    cbn [mbind result_bind]. intros (new & -> & Hnew)%IH.
    apply create_event_object_Ok in Hstep as (o & -> & Ho).
    exists (o :: new). rewrite <- app_assoc. split; [done|].
    by constructor.
Qed.

Lemma create_event_objects_Ok categories all_threads : forall objs objs',
  foldM (create_thread_objects categories) objs all_threads = Ok objs' ->
  exists new,
    objs' = objs ++ new /\
    Forall2 (is_record_of categories) (table_entries all_threads) new.
Proof.
  induction all_threads as [|[line times] all_threads IH]; intros objs objs';
    cbn [foldM].
  - intros [= <-]. exists []. by rewrite app_nil_r.
  - destruct (create_thread_objects categories objs (line, times))
      as [objs1|err] eqn:Hstep; [|intros [=]].
    cbn [mbind result_bind]. intros (new2 & -> & Hnew2)%IH.
    apply create_thread_objects_Ok in Hstep as (new1 & -> & Hnew1).
    exists (new1 ++ new2). rewrite <- app_assoc. split; [done|].
    unfold table_entries. cbn [map concat fst snd].
    by apply Forall2_app.
Qed.

(** The only exceptions are a missing category and a time too large for
    a float. *)
Lemma create_event_objects_Raise categories all_threads : forall objs err,
  foldM (create_thread_objects categories) objs all_threads = Raise err ->
  exists entry,
    entry ∈ table_entries all_threads /\
    ((dict_get (snd (fst entry)) categories = None /\
      err = KeyError (Str (snd (fst entry)))) \/
     (float_of_int (snd entry) = Raise err /\ err = OverflowError)).
Proof.
  assert (Hthread : forall line times objs err,
    foldM (create_event_object categories line) objs times = Raise err ->
    exists nv,
      nv ∈ times /\
      ((dict_get (fst nv) categories = None /\ err = KeyError (Str (fst nv))) \/
       (float_of_int (snd nv) = Raise err /\ err = OverflowError))).
  { intros line times. induction times as [|[data time] times IH];
      intros objs err; cbn [foldM]; [discriminate|].
    destruct (create_event_object categories line objs (data, time))
      as [objs1|err1] eqn:Hstep; cbn [mbind result_bind].
    - intros (nv & Hin & Hnv)%IH. exists nv. split; [|done].
      apply elem_of_cons. tauto.
    - intros [= ->]. exists (data, time). split; [apply elem_of_cons; tauto|].
      unfold create_event_object in Hstep. cbn [fst snd].
      destruct (dict_get data categories) as [category|]; simpl in Hstep.
      + right. unfold float_of_int in *.
        destruct (binary_normalize prec emax time 0 false);
          simpl in Hstep; by simplify_eq.
      + left. by simplify_eq. }
  induction all_threads as [|[line times] all_threads IH]; intros objs err;
    cbn [foldM]; [discriminate|].
  unfold table_entries. cbn [map concat fst snd].
  destruct (create_thread_objects categories objs (line, times))
    as [objs1|err1] eqn:Hstep; cbn [mbind result_bind].
  - intros (entry & Hin & Hentry)%IH. exists entry. split; [|done].
    apply elem_of_app. by right.
  - intros [= ->]. apply Hthread in Hstep as ([data time] & Hin & Hnv).
    exists (line, data, time). split; [|done].
    apply elem_of_app. left. apply list_elem_of_fmap. by exists (data, time).
Qed.

Lemma table_entries_lookup all_threads t times n v :
  dict_get t all_threads = Some times -> dict_get n times = Some v ->
  (t, n, v) ∈ table_entries all_threads.
Proof.
  intros Ht%dict_get_elem_of Hn%dict_get_elem_of.
  apply list_elem_of_In, in_concat.
  exists (map (fun nv : string * Z => (t, fst nv, snd nv)) times). split.
  - apply in_map_iff. exists (t, times). split; [done|].
    by apply list_elem_of_In.
  - apply in_map_iff. exists (n, v). split; [done|]. by apply list_elem_of_In.
Qed.

Lemma table_entries_elem_of all_threads entry :
  entry ∈ table_entries all_threads ->
  exists times, (fst (fst entry), times) ∈ all_threads /\
                (snd (fst entry), snd entry) ∈ times.
Proof.
  intros (l & Hl & Hin)%list_elem_of_In%in_concat.
  apply in_map_iff in Hl as ([t times] & <- & Ht).
  apply in_map_iff in Hin as ([n v] & <- & Hn).
  exists times. split; by apply list_elem_of_In.
Qed.

Lemma table_entries_NoDup all_threads :
  dict_wf all_threads ->
  (forall t times, (t, times) ∈ all_threads -> dict_wf times) ->
  NoDup (map fst (table_entries all_threads)).
Proof.
  unfold dict_wf, dict_keys.
  induction all_threads as [|[t times] all_threads IH]; intros Hwf Htimes.
  - constructor.
  - unfold table_entries. cbn [map concat fst snd]. rewrite map_app.
    cbn [map fst] in Hwf. apply NoDup_cons in Hwf as [Ht Hwf].
    apply NoDup_app. split_and!.
    + rewrite map_map. cbn [fst].
      assert (Hnd : NoDup (map fst times))
        by (apply (Htimes t); apply elem_of_cons; tauto).
      clear -Hnd. induction times as [|[n v] times IH]; [constructor|].
      cbn [map fst] in *. apply NoDup_cons in Hnd as [Hn Hnd].
      constructor; [|by apply IH].
      intros ([n' v'] & [= <-] & Hin)%list_elem_of_fmap. apply Hn.
      apply list_elem_of_fmap. by exists (n, v').
    + intros [t' n'] Hin1 Hin2.
      apply list_elem_of_fmap in Hin1 as (e1 & He1 & Hin1).
      apply list_elem_of_fmap in Hin1 as ([n1 v1] & -> & _).
      apply list_elem_of_fmap in Hin2 as (e2 & He2 & Hin2).
      apply table_entries_elem_of in Hin2 as (times2 & Hin2 & _).
      cbn [fst snd] in *. simplify_eq. apply Ht.
      apply list_elem_of_fmap. exists (fst (fst e2), times2).
      split; [by rewrite <- He2|done].
    + apply IH; [done|]. intros t' times' Hin. apply (Htimes t').
      apply elem_of_cons. tauto.
Qed.

Lemma NoDup_fmap_elem_eq {A B} (f : A -> B) (l : list A) (x y : A) :
  NoDup (map f l) -> x ∈ l -> y ∈ l -> f x = f y -> x = y.
Proof.
  induction l as [|a l IH]; cbn [map]; [by intros _ ?%elem_of_nil|].
  intros [Ha Hnd]%NoDup_cons [->|Hx]%elem_of_cons [->|Hy]%elem_of_cons Hf.
  - done.
  - exfalso. apply Ha. rewrite Hf. apply list_elem_of_fmap. by exists y.
  - exfalso. apply Ha. rewrite <- Hf. apply list_elem_of_fmap. by exists x.
  - by apply IH.
Qed.

(** C9: for a table and a category mapping in which every accumulated name
    has a category and every time converts to a float,
    [create_event_objects] returns one record per (thread, name) entry of
    the table, in iteration order: the record carries the thread, the name,
    the name's category and the time divided by 1000000 as a binary64
    value; no two records share their (thread, name) pair, so the record of
    an entry is unique and one name on two threads gives two records. *)
Theorem one_record_per_thread_and_name all_threads categories :
  dict_wf all_threads ->
  (forall t times, (t, times) ∈ all_threads -> dict_wf times) ->
  Forall (fun entry => is_Some (dict_get (snd (fst entry)) categories) /\
                       is_ok (float_of_int (snd entry)) = true)
         (table_entries all_threads) ->
  exists objs,
    create_event_objects (all_threads, categories) = Ok objs /\
    Forall2 (is_record_of categories) (table_entries all_threads) objs /\
    NoDup (map (fun o => (THREAD o, EVENT_NAME o)) objs) /\
    (forall t times n v,
        dict_get t all_threads = Some times -> dict_get n times = Some v ->
        exists o,
          o ∈ objs /\ is_record_of categories (t, n, v) o /\
          forall o', o' ∈ objs -> THREAD o' = t -> EVENT_NAME o' = n -> o' = o).
Proof.
  intros Hwf Htimes Hconv. unfold create_event_objects.
  destruct (foldM (create_thread_objects categories) [] all_threads)
    as [objs|err] eqn:Hrun.
  - apply create_event_objects_Ok in Hrun as (new & -> & Hrec).
    cbn [app]. exists new.
    assert (Hkeys : map (fun o => (THREAD o, EVENT_NAME o)) new
                    = map fst (table_entries all_threads)).
    { clear -Hrec. induction Hrec as [|[[t n] v] o entries objs Ho _ IH];
        cbn [map]; [done|].
      destruct Ho as (-> & -> & _). by rewrite IH. }
    assert (Hnd : NoDup (map (fun o => (THREAD o, EVENT_NAME o)) new)).
    { rewrite Hkeys. by apply table_entries_NoDup. }
    split_and!; try done.
    intros t times n v Ht Hn.
    pose proof (table_entries_lookup _ _ _ _ _ Ht Hn) as Hin.
    apply list_elem_of_lookup in Hin as [i Hi].
    destruct (Forall2_lookup_l _ _ _ _ _ Hrec Hi) as (o & Ho & Hrecord).
    exists o. apply list_elem_of_lookup_2 in Ho. split_and!; try done.
    intros o' Ho' Hthread Hname.
    apply (NoDup_fmap_elem_eq (fun o => (THREAD o, EVENT_NAME o)) new);
      try done.
    destruct Hrecord as (-> & -> & _). cbn [fst snd]. congruence.
  - exfalso. apply create_event_objects_Raise in Hrun as (entry & Hin & Hbad).
    rewrite Forall_forall in Hconv. apply Hconv in Hin as [[c Hc] Hf].
    destruct Hbad as [[Hnone _]|[Hraise _]]; [congruence|].
    by rewrite Hraise in Hf.
Qed.

(** ** What a run that returns says about its input *)

Lemma process_event_fields s event s' :
  process_event s event = Ok s' ->
  is_Some (ph event) /\
  (is_complete event = true ->
   is_Some (name event) /\ is_Some (cat event) /\
   is_Some (ts event) /\ is_Some (dur event)).
Proof.
  intros Hstep. split.
  - destruct s as [categories st]. unfold process_event in Hstep.
    destruct (ph event); [eauto|discriminate].
  - intros Hx. destruct s as [categories st].
    destruct (process_event_complete _ _ _ _ Hx Hstep)
      as (n & c & t & d & ? & ? & ? & -> & -> & -> & -> & _).
    eauto.
Qed.

Lemma foldM_process_event_fields events : forall s s' event,
  foldM process_event s events = Ok s' -> event ∈ events ->
  is_Some (ph event) /\
  (is_complete event = true ->
   is_Some (name event) /\ is_Some (cat event) /\
   is_Some (ts event) /\ is_Some (dur event)).
Proof.
  induction events as [|e events IH]; intros s s' event; cbn [foldM].
  - by intros _ ?%elem_of_nil.
  - destruct (process_event s e) as [s1|err] eqn:Hstep; [|intros [=]].
    cbn [mbind result_bind]. intros Hrun [->|Hin]%elem_of_cons.
    + by eapply process_event_fields.
    + by eapply IH.
Qed.

Lemma get_times_fields threads : forall s s' t events event,
  foldM process_thread s threads = Ok s' ->
  (t, events) ∈ threads -> event ∈ events ->
  is_Some (ph event) /\
  (is_complete event = true ->
   is_Some (name event) /\ is_Some (cat event) /\
   is_Some (ts event) /\ is_Some (dur event)).
Proof.
  induction threads as [|[t0 events0] threads IH]; intros s s' t events event;
    cbn [foldM].
  - by intros _ ?%elem_of_nil.
  - destruct s as [all_threads categories].
    destruct (process_thread (all_threads, categories) (t0, events0))
      as [s1|err] eqn:Hthread; [|intros [=]].
    cbn [mbind result_bind]. intros Hrun [[= -> ->]|Hin]%elem_of_cons Hevent.
    + apply process_thread_Ok in Hthread as (categories1 & st1 & Hevents & _).
      by eapply foldM_process_event_fields.
    + by eapply IH.
Qed.

(** A Complete event without [ts] or [dur] stops the loop with the format
    error, one without [cat] with a [KeyError]. *)
Lemma process_event_missing_ts_dur s event :
  is_complete event = true -> ts event = None \/ dur event = None ->
  process_event s event = Raise IncorrectProfileFormatError.
Proof.
  destruct s as [categories st]. unfold process_event, is_complete.
  destruct (ph event) as [p|]; [|discriminate]. simpl. intros ->.
  by intros [-> | ->]; simpl; rewrite ?orb_true_r.
Qed.

Lemma process_event_missing_cat s event :
  is_complete event = true -> is_Some (ts event) -> is_Some (dur event) ->
  cat event = None ->
  process_event s event = Raise (KeyError (Str "cat")).
Proof.
  destruct s as [categories st]. unfold process_event, is_complete.
  destruct (ph event) as [p|]; [|discriminate]. simpl.
  intros -> [t ->] [d ->] Hcat. simpl. unfold record_category.
  by rewrite Hcat.
Qed.

Lemma process_event_missing_name s event :
  is_complete event = true -> is_Some (ts event) -> is_Some (dur event) ->
  is_Some (cat event) -> name event = None ->
  process_event s event = Raise (KeyError (Str "name")).
Proof.
  destruct s as [categories st]. unfold process_event, is_complete.
  destruct (ph event) as [p|]; [|discriminate]. simpl.
  intros -> [t ->] [d ->] [c Hcat] Hname. simpl. unfold record_category.
  by rewrite Hcat, Hname.
Qed.

(** The check of line 246 never fires: when [accumulate] is reached, the
    name has been read already. *)
Lemma process_event_name_check_dead s event :
  name event = None ->
  process_event s event <> Raise IncorrectProfileFormatError \/
  ph event = None \/ ts event = None \/ dur event = None.
Proof.
  intros Hname. destruct s as [categories st]. unfold process_event.
  destruct (ph event) as [p|]; [|tauto]. simpl.
  destruct (String.eqb p "X"); [|by left].
  destruct (ts event) as [t|]; [|tauto].
  destruct (dur event) as [d|]; [|tauto]. simpl.
  left. unfold record_category. rewrite Hname.
  by destruct (cat event).
Qed.

Lemma dict_set_elem_of {K V} `{EqDecision K} (d : dict K V) k v k' v' :
  (k', v') ∈ dict_set k v d -> (k', v') = (k, v) \/ (k', v') ∈ d.
Proof.
  induction d as [|[k0 v0] d IH]; cbn [dict_set].
  - intros ->%list_elem_of_singleton. by left.
  - destruct (decide (k = k0)) as [->|Hne].
    + intros [->|Hin]%elem_of_cons; [by left|].
      right. apply elem_of_cons. by right.
    + intros [->|Hin]%elem_of_cons.
      * right. apply elem_of_cons. by left.
      * destruct (IH Hin) as [->|Hd]; [by left|].
        right. apply elem_of_cons. by right.
Qed.

(** ** What [get_times] returns is made of dictionaries *)

Lemma accumulate_wf event_times event self_time event_times' :
  accumulate event_times event self_time = Ok event_times' ->
  dict_wf event_times -> dict_wf event_times'.
Proof.
  unfold accumulate. destruct (name event) as [n|]; simpl; [|discriminate].
  destruct (dict_has n event_times); simpl.
  - destruct (dict_get n event_times) as [old|]; simpl; [|discriminate].
    intros [= <-] Hwf. by apply dict_wf_set.
  - rewrite dict_get_set_eq. simpl. intros [= <-] Hwf. by do 2 apply dict_wf_set.
Qed.

Lemma foldM_process_event_wf events : forall categories st categories' st',
  foldM process_event (categories, st) events = Ok (categories', st') ->
  dict_wf categories -> dict_wf (event_times st) ->
  dict_wf categories' /\ dict_wf (event_times st').
Proof.
  induction events as [|event events IH]; intros categories st categories' st';
    cbn [foldM].
  - by intros [= <- <-].
  - destruct (process_event (categories, st) event) as [[categories1 st1]|err]
      eqn:Hstep; [|intros [=]].
    cbn [mbind result_bind]. intros Hrun Hcats Htimes.
    apply (IH _ _ _ _ Hrun); destruct (is_complete event) eqn:Hx.
    + destruct (process_event_complete _ _ _ _ Hx Hstep)
        as (n & c & t & d & seen1 & self_time & event_times1
            & _ & _ & _ & _ & _ & _ & [= -> _]).
      by apply dict_wf_set.
    + by apply (process_event_skip _ _ _ Hx) in Hstep as [= -> _].
    + destruct (process_event_complete _ _ _ _ Hx Hstep)
        as (n & c & t & d & seen1 & self_time & event_times1
            & _ & _ & _ & _ & _ & Hacc & [= _ ->]).
      by apply (accumulate_wf _ _ _ _ Hacc).
    + by apply (process_event_skip _ _ _ Hx) in Hstep as [= _ ->].
Qed.

Lemma foldM_process_thread_wf threads : forall all_threads categories
    all_threads' categories',
  foldM process_thread (all_threads, categories) threads
    = Ok (all_threads', categories') ->
  dict_wf all_threads -> dict_wf categories ->
  (forall t times, (t, times) ∈ all_threads -> dict_wf times) ->
  dict_wf all_threads' /\ dict_wf categories' /\
  (forall t times, (t, times) ∈ all_threads' -> dict_wf times).
Proof.
  induction threads as [|[thread events] threads IH];
    intros all_threads categories all_threads' categories'; cbn [foldM].
  - by intros [= <- <-].
  - destruct (process_thread (all_threads, categories) (thread, events))
      as [s1|err] eqn:Hthread; [|intros [=]].
    apply process_thread_Ok in Hthread as (categories1 & st1 & Hevents & ->).
    cbn [mbind result_bind]. intros Hrun Hall Hcats Htimes.
    destruct (foldM_process_event_wf _ _ _ _ _ Hevents Hcats) as [Hcats1 Hst1];
      [constructor|].
    apply (IH _ _ _ _ Hrun); [by apply dict_wf_set | done |].
    intros t times [[= -> ->]|Hin]%dict_set_elem_of; [done|].
    by apply (Htimes t).
Qed.

(** The table and the mapping [get_times] returns have unique keys. *)
Lemma get_times_wf threads all_threads categories :
  get_times threads = Ok (all_threads, categories) ->
  dict_wf all_threads /\ dict_wf categories /\
  (forall t times, (t, times) ∈ all_threads -> dict_wf times).
Proof.
  intros Hrun. apply (foldM_process_thread_wf _ _ _ _ _ Hrun);
    [constructor | constructor |].
  by intros t times ?%elem_of_nil.
Qed.

(** ** Names with a self-time have a category *)

Lemma foldM_process_event_names events : forall categories st categories' st',
  foldM process_event (categories, st) events = Ok (categories', st') ->
  (forall n, dict_has n (event_times st) = true -> dict_has n categories = true) ->
  (forall n, dict_has n (event_times st') = true ->
             dict_has n categories' = true) /\
  (forall n, dict_has n categories = true -> dict_has n categories' = true).
Proof.
  induction events as [|event events IH]; intros categories st categories' st';
    cbn [foldM].
  - intros [= <- <-]. done.
  - destruct (process_event (categories, st) event) as [[categories1 st1]|err]
      eqn:Hstep; [|intros [=]].
    cbn [mbind result_bind]. intros Hrun Hinv.
    destruct (is_complete event) eqn:Hx.
    + destruct (process_event_complete _ _ _ _ Hx Hstep)
        as (n & c & t & d & seen1 & self_time & event_times1
            & Hn & _ & _ & _ & _ & Hacc & [= -> ->]).
      apply accumulate_Ok in Hacc as (n' & Hn' & _ & _ & Hhas).
      rewrite Hn in Hn'. injection Hn' as <-.
      destruct (IH _ _ _ _ Hrun) as [Hnames Hmono].
      * intros n'. cbn [event_times]. rewrite Hhas, dict_has_set.
        intros [->|Hold]; [by left|]. right. by apply Hinv.
      * split; [done|]. intros n' Hn'. apply Hmono.
        rewrite dict_has_set. by right.
    + apply (process_event_skip _ _ _ Hx) in Hstep as [= -> ->].
      by apply (IH _ _ _ _ Hrun).
Qed.

Lemma get_times_names threads : forall all_threads categories all_threads'
    categories',
  foldM process_thread (all_threads, categories) threads
    = Ok (all_threads', categories') ->
  (forall t times n, (t, times) ∈ all_threads -> dict_has n times = true ->
                     dict_has n categories = true) ->
  (forall t times n, (t, times) ∈ all_threads' -> dict_has n times = true ->
                     dict_has n categories' = true).
Proof.
  induction threads as [|[thread events] threads IH];
    intros all_threads categories all_threads' categories'; cbn [foldM].
  - intros [= <- <-]. done.
  - destruct (process_thread (all_threads, categories) (thread, events))
      as [s1|err] eqn:Hthread; [|intros [=]].
    apply process_thread_Ok in Hthread as (categories1 & st1 & Hevents & ->).
    cbn [mbind result_bind]. intros Hrun Hinv. apply (IH _ _ _ _ Hrun).
    destruct (foldM_process_event_names _ _ _ _ _ Hevents) as [Hnames Hmono];
      [done|].
    intros t times n [[= -> ->]|Hin]%dict_set_elem_of Hn.
    + by apply Hnames.
    + apply Hmono. by eapply Hinv.
Qed.

(** ** Categories, totals and failures *)

Lemma dict_set_set {K V} `{EqDecision K} (d : dict K V) k v1 v2 :
  dict_set k v2 (dict_set k v1 d) = dict_set k v2 d.
Proof.
  induction d as [|[k0 v0] d IH]; cbn [dict_set].
  - by rewrite decide_True.
  - destruct (decide (k = k0)) as [->|Hne]; cbn [dict_set].
    + by rewrite decide_True.
    + by rewrite decide_False, IH.
Qed.

(** What a record does to [cats]: its name is appended to the list of its
    category, which is created empty when the category is new. *)
Lemma get_data_line_cats cats threads line s' :
  get_data_line (cats, threads) line = Ok s' ->
  match cat line with
  | Some c =>
      exists n, name line = Some n /\
                fst s' = dict_set c (default [] (dict_get c cats) ++ [n]) cats
  | None => fst s' = cats
  end.
Proof.
  unfold get_data_line.
  destruct (cat line) as [c|]; simpl.
  - destruct (dict_has c cats) eqn:Hhas; simpl; unfold dict_has in Hhas.
    + destruct (dict_get c cats) as [names|] eqn:Hget; [|discriminate]. simpl.
      destruct (name line) as [n|]; simpl; [|discriminate].
      destruct (tid line) as [a|]; simpl; [|discriminate].
      match goal with |- context [getitem_at a ?x] => destruct x end;
        simpl; [|discriminate].
      intros [= <-]. by exists n.
    + rewrite dict_get_set_eq. simpl.
      destruct (name line) as [n|]; simpl; [|discriminate].
      destruct (tid line) as [a|]; simpl; [|discriminate].
      match goal with |- context [getitem_at a ?x] => destruct x end;
        simpl; [|discriminate].
      intros [= <-]. exists n. split; [done|]. simpl.
      destruct (dict_get c cats); [discriminate|]. simpl.
      by rewrite dict_set_set.
  - destruct (tid line) as [a|]; simpl; [|discriminate].
    match goal with |- context [getitem_at a ?x] => destruct x end;
      simpl; [|discriminate].
    by intros [= <-].
Qed.

(** After the loop, the list of a category is the list it had before with
    the names of the records of that category appended in arrival order,
    one per record. *)
Lemma foldM_get_data_line_cats c lines : forall s s',
  foldM get_data_line s lines = Ok s' ->
  exists names,
    map name (List.filter (fun l => bool_decide (cat l = Some c)) lines)
      = map Some names /\
    dict_get c (fst s') =
      match names with
      | [] => dict_get c (fst s)
      | _ => Some (default [] (dict_get c (fst s)) ++ names)
      end.
Proof.
  induction lines as [|line lines IH]; intros [cats threads] s';
    cbn [foldM List.filter].
  - intros [= <-]. by exists [].
  - destruct (get_data_line (cats, threads) line) as [[cats1 threads1]|err]
      eqn:Hline; [|intros [=]].
    cbn [mbind result_bind]. intros Hrun.
    destruct (IH _ _ Hrun) as (names & Hnames & Hget).
    apply get_data_line_cats in Hline. cbn [fst] in *.
    destruct (cat line) as [c0|] eqn:Hc0.
    + destruct Hline as (n & Hn & ->).
      case_bool_decide as Hc.
      * injection Hc as ->. exists (n :: names). cbn [map].
        rewrite Hn, Hnames. split; [done|].
        rewrite Hget, dict_get_set_eq. cbn [default].
        destruct names as [|n' names]; [done|].
        unfold id. by rewrite <- app_assoc.
      * exists names. split; [done|].
        rewrite Hget, dict_get_set_ne by congruence. done.
    + subst cats1. rewrite bool_decide_eq_false_2 by discriminate.
      by exists names.
Qed.

Lemma get_data_line_Ok cats threads line s' :
  get_data_line (cats, threads) line = Ok s' ->
  exists a,
    tid line = Some a /\
    snd s' = dict_set a (default [] (dict_get a threads) ++ [line]) threads /\
    (is_Some (cat line) -> is_Some (name line)).
Proof.
  unfold get_data_line.
  destruct (tid line) as [a|]; cycle 1.
  { simpl. match goal with |- context [mbind _ ?m] => destruct m end;
      simpl; discriminate. }
  intros Hrun. exists a. split; [done|].
  assert (Hcat : is_Some (cat line) -> is_Some (name line)).
  { intros [c Hc]. rewrite Hc in Hrun. simpl in Hrun.
    destruct (name line); [eauto|].
    exfalso. revert Hrun.
    destruct (dict_has c cats) eqn:Hhas; simpl.
    - unfold dict_has in Hhas.
      destruct (dict_get c cats); [simpl; discriminate|discriminate].
    - rewrite dict_get_set_eq. simpl. discriminate. }
  split; [|done]. revert Hrun.
  match goal with |- context [mbind _ ?m] => destruct m as [cats1|err] end;
    simpl; [|discriminate].
  unfold dict_has. destruct (dict_get a threads) as [events|] eqn:Hget; simpl.
  - rewrite Hget. simpl. by intros [= <-].
  - rewrite dict_get_set_eq. simpl. intros [= <-]. simpl.
    by rewrite dict_set_set.
Qed.

Lemma foldM_get_data_line_threads t lines : forall s s',
  foldM get_data_line s lines = Ok s' ->
  dict_get t (snd s') =
  match List.filter (fun l => bool_decide (tid l = Some t)) lines with
  | [] => dict_get t (snd s)
  | events => Some (default [] (dict_get t (snd s)) ++ events)
  end.
Proof.
  induction lines as [|line lines IH]; intros [cats threads] s';
    cbn [foldM List.filter].
  - by intros [= <-].
  - destruct (get_data_line (cats, threads) line) as [[cats1 threads1]|err]
      eqn:Hline; [|intros [=]].
    cbn [mbind result_bind]. intros Hrun. rewrite (IH _ _ Hrun).
    apply get_data_line_Ok in Hline as (a & Ha & Hthreads & _).
    cbn [snd] in *. subst threads1. rewrite Ha.
    case_bool_decide as Hat.
    + injection Hat as ->. rewrite dict_get_set_eq. cbn [default].
      destruct (List.filter _ lines) as [|e events]; [done|].
      unfold id. by rewrite <- app_assoc.
    + rewrite dict_get_set_ne by congruence. done.
Qed.

Lemma get_data_Ok_lines id lines res :
  get_data (Some (Document (Some (OtherData (Some id))) (Some lines))) = Ok res ->
  exists cats, foldM get_data_line ([], []) lines = Ok (cats, snd res) /\
               fst res = id.
Proof.
  unfold get_data, get_data_body. simpl.
  destruct (foldM get_data_line ([], []) lines) as [[cats threads]|err];
    simpl; [|discriminate].
  intros [= <-]. by exists cats.
Qed.

(** C4, counterexample: a begin record named "a" carries the category "c".
    [get_data] files it under the category, in a dictionary from a category
    to the names seen with it that is not part of what it returns, and the
    name-to-category mapping that [get_times] returns, the one
    [create_event_objects] reads, has no entry for "a".  Two records of one
    name with two categories are both kept by [get_data]. *)
Lemma category_index_counterexample :
  foldM get_data_line ([], []) [begin "a" "c" 0]
    = Ok ([("c", ["a"])], [(Int 1, [begin "a" "c" 0])]) /\
  get_data (profile [begin "a" "c" 0]) = Ok ("build", [(Int 1, [begin "a" "c" 0])]) /\
  get_times [(Int 1, [begin "a" "c" 0])] = Ok ([(Int 1, [])], []) /\
  (foldM get_data_line ([], []) [begin "a" "c" 0; begin "a" "d" 1]
     ≫= fun s => Ok (fst s)) = Ok [("c", ["a"]); ("d", ["a"])].
Proof. by vm_compute. Qed.

(** C4, amended: the name-to-category mapping returned by [get_times] maps
    each name to the category of the last Complete event of that name that
    [get_times] visited (threads in dictionary order, events in arrival
    order), and has no entry for a name no Complete event carries; it is the
    mapping [create_event_objects] reads, so every output record carries
    that category.  The dictionary [cats] of [get_data] goes the other
    way, from a category to names: when [get_data] returns, the list of a
    category holds the names of the records of that category, whatever
    their phase, in arrival order, one per record (appended, nothing
    overwritten), and a category no record carries has no entry; what
    [get_data] returns is the build id and the records grouped by thread,
    without [cats]. *)
Theorem categories_from_complete_events :
  (forall threads all_threads categories,
      get_times threads = Ok (all_threads, categories) ->
      (forall n, dict_get n categories = last_category n (visited threads)) /\
      (forall objs o,
          create_event_objects (all_threads, categories) = Ok objs -> o ∈ objs ->
          last_category (EVENT_NAME o) (visited threads) = Some (CATEGORY o))) /\
  (forall id lines res,
      get_data (Some (Document (Some (OtherData (Some id))) (Some lines)))
        = Ok res ->
      exists cats,
        foldM get_data_line ([], []) lines = Ok (cats, snd res) /\
        fst res = id /\
        (forall t,
            dict_get t (snd res) =
            match List.filter (fun l => bool_decide (tid l = Some t)) lines with
            | [] => None
            | events => Some events
            end) /\
        forall c, exists names,
          map name (List.filter (fun l => bool_decide (cat l = Some c)) lines)
            = map Some names /\
          dict_get c cats = match names with [] => None | _ => Some names end).
Proof.
  split.
  - intros threads all_threads categories Hrun.
    assert (Hcat : forall n,
               dict_get n categories = last_category n (visited threads)).
    { intros n. apply (foldM_process_thread_categories n) in Hrun. done. }
    split; [done|]. intros objs o Hobjs Ho.
    apply create_event_objects_Ok in Hobjs as (new & -> & Hrec).
    cbn [app] in Ho. apply list_elem_of_lookup in Ho as [i Hi].
    destruct (Forall2_lookup_r _ _ _ _ _ Hrec Hi)
      as ([[t n] v] & _ & _ & Hname & Hc & _).
    cbn [fst snd] in *. by rewrite Hname, <- Hcat.
  - intros id lines res (cats & Hrun & Hid)%get_data_Ok_lines.
    exists cats. split; [done|]. split; [done|]. split.
    { intros t. apply (foldM_get_data_line_threads t) in Hrun.
      cbn [snd dict_get default app] in Hrun. rewrite Hrun.
      by destruct (List.filter _ lines). }
    intros c.
    destruct (foldM_get_data_line_cats c _ _ _ Hrun) as (names & Hnames & Hget).
    exists names. split; [done|]. cbn [fst dict_get default app] in Hget.
    by destruct names.
Qed.

(** C5, counterexample: with P (ts 100, dur 1), A (ts 1, dur 5) and
    B (ts 2, dur 5) processed, the total of "P" is 1; a second P (ts 0,
    dur 6) has A and B subtracted, contributes 6 - 5 - 5 = -4, and the
    total of "P" drops to -3. *)
Lemma per_name_total_decreases :
  (foldM process_event ([], init_thread)
     [complete "P" "c" 100 1; complete "A" "c" 1 5; complete "B" "c" 2 5]
   ≫= fun s => Ok (dict_get "P" (event_times (snd s)))) = Ok (Some 1) /\
  (foldM process_event ([], init_thread)
     [complete "P" "c" 100 1; complete "A" "c" 1 5; complete "B" "c" 2 5;
      complete "P" "c" 0 6]
   ≫= fun s => Ok (dict_get "P" (event_times (snd s)))) = Ok (Some (-3)).
Proof. by vm_compute. Qed.

(** The key of [seen] is the text of the record.  Two records with the
    same six fields and another order of the keys are two events for the
    scan, and both are subtracted from the parent; the same record twice is
    one key, and is subtracted once.  With children of 60 microseconds the
    parent of 100 gets 100 - 60 - 60 = -20. *)
Lemma equal_fields_other_text_both_subtracted :
  get_times [(Int 1, [complete "C" "c" 10 20; complete_reordered "C" "c" 10 20;
                      complete "P" "c" 0 100])]
    = Ok ([(Int 1, [("C", 40); ("P", 60)])], [("C", "c"); ("P", "c")]) /\
  get_times [(Int 1, [complete "C" "c" 10 20; complete "C" "c" 10 20;
                      complete "P" "c" 0 100])]
    = Ok ([(Int 1, [("C", 40); ("P", 80)])], [("C", "c"); ("P", "c")]) /\
  get_times [(Int 1, [complete "C" "c" 10 60; complete_reordered "C" "c" 10 60;
                      complete "P" "c" 0 100])]
    = Ok ([(Int 1, [("C", 120); ("P", -20)])], [("C", "c"); ("P", "c")]) /\
  text (complete "C" "c" 10 20)
    = "{'name': 'C', 'cat': 'c', 'ph': 'X', 'ts': 10, 'dur': 20, 'tid': 1}" /\
  text (complete_reordered "C" "c" 10 20)
    = "{'ph': 'X', 'name': 'C', 'cat': 'c', 'ts': 10, 'dur': 20, 'tid': 1}".
Proof. by vm_compute. Qed.

(** C5, amended: folding a Complete event named [n] into a thread's table
    adds its self-time to the total of [n] (0 when [n] is new) and leaves
    the other totals alone; the self-time is the duration minus the
    durations of the prior events subtracted from it.  The total of [n]
    does not decrease when the duration is not negative and at most one
    prior event is subtracted, as when the guard skips the scan. *)
Theorem per_name_total_step categories st event s' n :
  is_complete event = true -> name event = Some n ->
  process_event (categories, st) event = Ok s' ->
  exists d,
    dur event = Some d /\
    dict_get n (event_times (snd s')) =
      Some (default 0 (dict_get n (event_times st))
            + (d - sum_dur (sources_of st event))) /\
    (forall n', n' <> n ->
       dict_get n' (event_times (snd s')) = dict_get n' (event_times st)) /\
    (0 <= d -> (length (sources_of st event) <= 1)%nat ->
     default 0 (dict_get n (event_times st))
     <= default 0 (dict_get n (event_times (snd s')))) /\
    (total_time st <= 0 -> sources_of st event = []).
Proof.
  intros Hx Hn Hstep.
  destruct (process_event_complete _ _ _ _ Hx Hstep)
    as (n0 & c & t & d & seen1 & self_time & event_times1
        & Hn0 & _ & _ & Hd & Hself & Hacc & ->).
  destruct (overlap_subtraction_sources _ _ _ _ _ Hx Hd Hself)
    as (_ & -> & _ & _).
  apply accumulate_Ok in Hacc as (n1 & Hn1 & Hget & Hother & _).
  simplify_eq. exists d. cbn [snd event_times]. split_and!; try done.
  - intros Hd0 Hlen. cbn [snd event_times]. rewrite Hget. cbn [default].
    destruct (sources_of st event) as [|c0 [|c1 l]] eqn:Hsrc.
    + simpl. lia.
    + assert (Hc0 : c0 ∈ sources_of st event)
        by (rewrite Hsrc; apply elem_of_cons; tauto).
      apply sources_of_child in Hc0 as (dc & de & Hdc & Hde & Hlt).
      unfold sum_dur. simpl. rewrite Hdc. simpl. simplify_eq. lia.
    + simpl in Hlen. lia.
  - intros Hle. by apply (overlap_subtraction_skipped st event 0).
Qed.

(** C6, at the failing input: a thread whose only event is Complete, has
    [ts], [dur] and [cat] but no [name].  The read of line 230 raises a
    [KeyError] for "name" before the check of line 246 is reached. *)
Theorem complete_event_without_name_raises_KeyError (thread : thread_id)
    (c : string) (t d : Z) (i : option thread_id) (txt : string) :
  get_times
    [(thread, [TraceEvent None (Some c) (Some "X") (Some t) (Some d) i txt])]
  = Raise (KeyError (Str "name")).
Proof. reflexivity. Qed.

(** Whatever the exception, a Complete event that lacks one of its fields,
    or an event without [ph], lets [get_times] return nothing. *)
Lemma get_times_incomplete_event_fails threads t events event :
  (t, events) ∈ threads -> event ∈ events ->
  ph event = None \/
  (is_complete event = true /\
   (name event = None \/ cat event = None \/
    ts event = None \/ dur event = None)) ->
  exists err, get_times threads = Raise err.
Proof.
  intros Ht Hevent Hbad. unfold get_times.
  destruct (foldM process_thread ([], []) threads) as [s'|err] eqn:Hrun;
    [|by exists err].
  exfalso.
  destruct (get_times_fields _ _ _ _ _ _ Hrun Ht Hevent) as [[p Hph] Hfields].
  destruct Hbad as [Hnone|[Hx Hnone]]; [congruence|].
  destruct (Hfields Hx) as ([n Hn] & [c Hc] & [ts Hts] & [d Hd]).
  naive_solver.
Qed.

(** C7, at the failing input: a profile whose only record has no [tid]
    (and no [cat]).  The format error raised for it is caught by the
    handler around the loop, and the caller gets [UnableToUnzipFileError]
    with the format error as its cause. *)
Theorem get_data_missing_tid_raises_unzip_error (id : string)
    (n p : option string) (t d : option Z) (txt : string) :
  get_data (Some (Document (Some (OtherData (Some id)))
                           (Some [TraceEvent n None p t d None txt])))
  = Raise (UnableToUnzipFileError IncorrectProfileFormatError).
Proof. reflexivity. Qed.

(** No exception leaves [get_data] but [UnableToUnzipFileError]. *)
Lemma get_data_Raise file err :
  get_data file = Raise err -> exists cause, err = UnableToUnzipFileError cause.
Proof.
  unfold get_data. destruct (get_data_body file) as [res|exc]; [discriminate|].
  intros [= <-]. by exists exc.
Qed.

Lemma get_data_line_missing_tid s line s' :
  tid line = None -> get_data_line s line <> Ok s'.
Proof.
  intros Htid. destruct s as [cats threads]. unfold get_data_line.
  rewrite Htid. simpl.
  match goal with |- context [mbind _ ?m] => destruct m end; simpl; congruence.
Qed.

(** A record without [tid] makes [get_data] fail, and the failure is an
    [UnableToUnzipFileError]. *)
Lemma get_data_missing_tid_fails id lines line :
  line ∈ lines -> tid line = None ->
  exists cause,
    get_data (Some (Document (Some (OtherData (Some id))) (Some lines)))
    = Raise (UnableToUnzipFileError cause).
Proof.
  intros Hin Htid.
  destruct (get_data (Some (Document (Some (OtherData (Some id))) (Some lines))))
    as [res|err] eqn:Hrun.
  - exfalso. unfold get_data, get_data_body in Hrun. simpl in Hrun.
    destruct (foldM get_data_line ([], []) lines) as [s'|exc] eqn:Hloop;
      [|discriminate].
    clear Hrun. revert Hloop. generalize (@nil (string * list string),
      @nil (thread_id * list trace_event)).
    induction lines as [|l lines IH]; intros s; cbn [foldM].
    + by apply elem_of_nil in Hin.
    + destruct (get_data_line s l) as [s1|exc] eqn:Hline; [|discriminate].
      cbn [mbind result_bind]. apply elem_of_cons in Hin as [<-|Hin].
      * by apply get_data_line_missing_tid in Hline.
      * by apply IH.
  - apply get_data_Raise in Hrun as Hcause. destruct Hcause as [cause ->].
    by exists cause.
Qed.

(** C8, counterexample: a thread whose only event has no [ph] field.
    [get_times] raises the format error; without the event it returns an
    empty table for the thread. *)
Lemma event_without_ph_raises :
  get_times
    [(Int 1, [event_of (Some "a") (Some "c") None (Some 0) (Some 1)
                         (Some (Int 1))])]
    = Raise IncorrectProfileFormatError /\
  get_times [(Int 1, [])] = Ok ([(Int 1, [])], []).
Proof. by vm_compute. Qed.

Lemma process_event_missing_ph s event :
  ph event = None -> process_event s event = Raise IncorrectProfileFormatError.
Proof.
  intros Hph. destruct s as [categories st]. unfold process_event.
  by rewrite Hph.
Qed.

(** C8, amended: an event whose [ph] field is present and is not "X" is
    skipped: with or without it in a thread's timeline, [get_times] gives
    the same result, tables, categories and exceptions alike.  An event
    without a [ph] field is not skipped: wherever it stands, [get_times]
    fails, and the exception is the format error when the threads and the
    events before it are processed without an exception (else the
    exception met before it). *)
Theorem other_phase_event_skipped before thread pre event post after :
  (forall p,
      ph event = Some p -> p <> "X" ->
      get_times (before ++ (thread, pre ++ event :: post) :: after) =
      get_times (before ++ (thread, pre ++ post) :: after)) /\
  (ph event = None ->
   (exists err,
       get_times (before ++ (thread, pre ++ event :: post) :: after)
       = Raise err) /\
   (forall s1 s2,
       foldM process_thread ([], []) before = Ok s1 ->
       foldM process_event (snd s1, init_thread) pre = Ok s2 ->
       get_times (before ++ (thread, pre ++ event :: post) :: after)
       = Raise IncorrectProfileFormatError)).
Proof.
  split.
  - intros p Hph Hp. unfold get_times. rewrite !foldM_app.
    destruct (foldM process_thread ([], []) before)
      as [[all_threads categories]|err]; [|done].
    cbn [mbind result_bind foldM].
    by rewrite (process_thread_skip _ thread pre event post p).
  - intros Hph. split.
    + apply (get_times_incomplete_event_fails _ thread (pre ++ event :: post)
               event); [| |by left].
      * apply elem_of_app. right. apply elem_of_cons. by left.
      * apply elem_of_app. right. apply elem_of_cons. by left.
    + intros [all_threads categories] s2 Hbefore Hpre.
      unfold get_times. rewrite foldM_app, Hbefore.
      cbn [mbind result_bind foldM]. cbn [snd] in Hpre.
      rewrite (process_thread_Raise _ _ _ _ IncorrectProfileFormatError);
        [done|].
      rewrite foldM_app, Hpre. cbn [mbind result_bind foldM].
      by rewrite process_event_missing_ph.
Qed.

(** C10, counterexample: a Complete event that lacks [cat], and [ts] and
    [dur] with it, does not give a key-lookup error: the check of [ts] and
    [dur] comes first and raises the format error.  So does an event
    without [ph] ahead of a Complete event that lacks only [cat]. *)
Lemma missing_cat_not_always_KeyError :
  get_times
    [(Int 1, [event_of (Some "a") None (Some "X") None None (Some (Int 1))])]
    = Raise IncorrectProfileFormatError /\
  get_times
    [(Int 1, [event_of (Some "b") (Some "c") None (Some 0) (Some 1)
                         (Some (Int 1));
              event_of (Some "a") None (Some "X") (Some 0) (Some 1)
                         (Some (Int 1))])]
    = Raise IncorrectProfileFormatError.
Proof. by vm_compute. Qed.

(** C10, amended: when [get_times] returns, every name with a self-time in
    the table has a category, and [create_event_objects] raises no
    [KeyError] on what [get_times] returned.  A Complete event without
    [cat] makes [get_times] fail; the exception is the [KeyError] for "cat"
    when the event has [ts] and [dur] and the threads and events before it
    are processed without an exception. *)
Theorem categories_cover_self_times threads :
  (forall all_threads categories,
      get_times threads = Ok (all_threads, categories) ->
      (forall t times n, (t, times) ∈ all_threads -> dict_has n times = true ->
                         dict_has n categories = true) /\
      (forall key,
          create_event_objects (all_threads, categories)
          <> Raise (KeyError key))) /\
  (forall t events event,
      (t, events) ∈ threads -> event ∈ events ->
      is_complete event = true -> cat event = None ->
      exists err, get_times threads = Raise err) /\
  (forall before t pre event post after s1 s2,
      threads = before ++ (t, pre ++ event :: post) :: after ->
      foldM process_thread ([], []) before = Ok s1 ->
      foldM process_event (snd s1, init_thread) pre = Ok s2 ->
      is_complete event = true -> is_Some (ts event) -> is_Some (dur event) ->
      cat event = None ->
      get_times threads = Raise (KeyError (Str "cat"))).
Proof.
  split_and!.
  - intros all_threads categories Hrun.
    assert (Hnames : forall t times n,
               (t, times) ∈ all_threads -> dict_has n times = true ->
               dict_has n categories = true).
    { apply (get_times_names _ _ _ _ _ Hrun). by intros t times n ?%elem_of_nil. }
    split; [done|]. intros key Hraise. unfold create_event_objects in Hraise.
    apply create_event_objects_Raise in Hraise
      as (entry & Hin & [[Hnone _]|[_ [=]]]).
    apply table_entries_elem_of in Hin as (times & Ht & Hn).
    assert (Hhas : dict_has (snd (fst entry)) categories = true).
    { apply (Hnames (fst (fst entry)) times); [done|]. apply dict_has_keys.
      apply list_elem_of_fmap. by exists (snd (fst entry), snd entry). }
    unfold dict_has in Hhas. by rewrite Hnone in Hhas.
  - intros t events event Ht Hevent Hx Hcat.
    apply (get_times_incomplete_event_fails threads t events event); tauto.
  - intros before t pre event post after [all_threads categories] s2 ->
      Hbefore Hpre Hx Hts Hdur Hcat.
    unfold get_times. rewrite foldM_app, Hbefore.
    cbn [mbind result_bind foldM]. cbn [snd] in Hpre.
    rewrite (process_thread_Raise _ _ _ _ (KeyError (Str "cat"))); [done|].
    rewrite foldM_app, Hpre. cbn [mbind result_bind foldM].
    by rewrite process_event_missing_cat.
Qed.

(** ** The theorems at sample inputs *)

(** The child C (ts 10) lies inside the intervals of P1, [0, 50), and of
    P2, [5, 105).  It comes three times: twice with the same text and once,
    as C', with the keys in another order.  One C and C' are subtracted
    from P1, the other C is not, and nothing is subtracted from P2. *)
Lemma single_use_subtraction_witness :
  let C := complete "C" "c" 10 5 in
  let C' := complete_reordered "C" "c" 10 5 in
  let P1 := complete "P1" "c" 0 50 in
  let P2 := complete "P2" "c" 5 100 in
  let events := [C; C'; C; P1; P2] in
  foldM process_event ([], init_thread) events =
    Ok ([("C", "c"); ("P1", "c"); ("P2", "c")],
        ThreadState 155 events [("C", 15); ("P1", 40); ("P2", 100)]
                    {[text C; text C']}) /\
  subtractions ([], init_thread) events
    = [(C, []); (C', []); (C, []); (P1, [C; C']); (P2, [])] /\
  NoDup (map text (concat (map snd (subtractions ([], init_thread) events)))) /\
  ({[text C; text C']} : gset string)
    = list_to_set (map text (concat (map snd (subtractions ([], init_thread)
                                                           events)))).
Proof.
  intros C C' P1 P2 events.
  assert (Hrun : foldM process_event ([], init_thread) events =
    Ok ([("C", "c"); ("P1", "c"); ("P2", "c")],
        ThreadState 155 events [("C", 15); ("P1", 40); ("P2", 100)]
                    {[text C; text C']}))
    by (vm_compute; reflexivity).
  split; [exact Hrun|]. split; [vm_compute; reflexivity|].
  destruct (single_use_subtraction _ _ _ _ Hrun) as (_ & _ & Hnd & _ & Hseen & _).
  split; [exact Hnd|exact Hseen].
Defined.

(** A begin event, then the first Complete event. *)
Lemma first_complete_event_keeps_duration_witness :
  let pre := [begin "b" "c" 0] in
  let event := complete "C" "c" 10 20 in
  Forall (fun e => is_other_phase e = true) pre /\
  ph event = Some "X" /\
  foldM process_event ([], init_thread) (pre ++ [event]) =
    Ok (dict_set "C" "c" [], ThreadState 20 [event] [("C", 20)] ∅) /\
  (forall post, exists log,
      subtractions ([], init_thread) (pre ++ event :: post) = (event, []) :: log).
Proof.
  intros pre event.
  assert (Hpre : Forall (fun e => is_other_phase e = true) pre)
    by (repeat constructor).
  pose proof (first_complete_event_keeps_duration
                [] pre event "C" "c" 10 20 Hpre eq_refl eq_refl eq_refl
                eq_refl eq_refl) as (Hstate & Hlog & _).
  split; [exact Hpre|]. split; [reflexivity|]. split; [exact Hstate|exact Hlog].
Defined.

(** The name "a" on two threads with two categories, and begin events whose
    categories are not recorded; three records of one category, two of them
    with the same name. *)
Lemma categories_from_complete_events_witness :
  let threads :=
    [(Int 1, [complete "a" "c1" 0 5; begin "a" "zz" 1]);
     (Int 2, [complete "a" "c2" 10 5; begin "b" "zz" 1])] in
  let lines := [begin "a" "c" 0; complete "b" "c" 1 2; begin "a" "c" 3] in
  get_times threads =
    Ok ([(Int 1, [("a", 5)]); (Int 2, [("a", 5)])], [("a", "c2")]) /\
  (forall n, dict_get n [("a", "c2")] = last_category n (visited threads)) /\
  get_data (profile lines) = Ok ("build", [(Int 1, lines)]) /\
  foldM get_data_line ([], []) lines
    = Ok ([("c", ["a"; "b"; "a"])], [(Int 1, lines)]) /\
  exists cats,
    foldM get_data_line ([], []) lines = Ok (cats, [(Int 1, lines)]) /\
    forall c, exists names,
      map name (List.filter (fun l => bool_decide (cat l = Some c)) lines)
        = map Some names /\
      dict_get c cats = match names with [] => None | _ => Some names end.
Proof.
  intros threads lines.
  assert (Hrun : get_times threads =
    Ok ([(Int 1, [("a", 5)]); (Int 2, [("a", 5)])], [("a", "c2")]))
    by (vm_compute; reflexivity).
  assert (Hdata : get_data (profile lines) = Ok ("build", [(Int 1, lines)]))
    by (vm_compute; reflexivity).
  split; [exact Hrun|].
  split; [exact (proj1 (proj1 categories_from_complete_events _ _ _ Hrun))|].
  split; [exact Hdata|]. split; [vm_compute; reflexivity|].
  destruct (proj2 categories_from_complete_events _ _ _ Hdata)
    as (cats & Hloop & _ & _ & Hcats).
  exists cats. split; [exact Hloop|exact Hcats].
Defined.

(** The second P of the timeline P, A, B, P: B and A are subtracted. *)
Lemma per_name_total_step_witness :
  let P0 := complete "P" "c" 100 1 in
  let A := complete "A" "c" 1 5 in
  let B := complete "B" "c" 2 5 in
  let st := ThreadState 11 [P0; A; B] [("P", 1); ("A", 5); ("B", 5)] ∅ in
  let event := complete "P" "c" 0 6 in
  foldM process_event ([], init_thread) [P0; A; B] =
    Ok ([("P", "c"); ("A", "c"); ("B", "c")], st) /\
  sources_of st event = [B; A] /\
  exists d s',
    process_event ([("P", "c"); ("A", "c"); ("B", "c")], st) event = Ok s' /\
    dur event = Some d /\
    dict_get "P" (event_times (snd s')) =
      Some (default 0 (dict_get "P" (event_times st))
            + (d - sum_dur (sources_of st event))).
Proof.
  intros P0 A B st event.
  split; [vm_compute; reflexivity|]. split; [vm_compute; reflexivity|].
  destruct (process_event ([("P", "c"); ("A", "c"); ("B", "c")], st) event)
    as [s'|err] eqn:Hstep; [|vm_compute in Hstep; discriminate Hstep].
  destruct (per_name_total_step _ st event s' "P" eq_refl eq_refl Hstep)
    as (d & Hd & Hget & _).
  exists d, s'. split; [reflexivity|]. split; [exact Hd|exact Hget].
Defined.

(** A begin event between the child and the parent; in its place, an
    event without [ph]. *)
Lemma other_phase_event_skipped_witness :
  let no_ph := event_of (Some "b") (Some "z") None (Some 5) None
                        (Some (Int 1)) in
  get_times [(Int 1, [complete "C" "c" 10 20] ++ begin "b" "z" 5
                       :: [complete "P" "c" 0 100])] =
  get_times [(Int 1, [complete "C" "c" 10 20] ++ [complete "P" "c" 0 100])] /\
  get_times [(Int 1, [complete "C" "c" 10 20] ++ [complete "P" "c" 0 100])] =
  Ok ([(Int 1, [("C", 20); ("P", 80)])], [("C", "c"); ("P", "c")]) /\
  get_times [(Int 1, [complete "C" "c" 10 20] ++ no_ph
                       :: [complete "P" "c" 0 100])] =
  Raise IncorrectProfileFormatError.
Proof.
  intros no_ph. split; [|split; [vm_compute; reflexivity|]].
  - apply (proj1 (other_phase_event_skipped [] (Int 1) [complete "C" "c" 10 20]
                    (begin "b" "z" 5) [complete "P" "c" 0 100] []) "B").
    + reflexivity.
    + discriminate.
  - apply (proj2 (proj2 (other_phase_event_skipped [] (Int 1)
                           [complete "C" "c" 10 20] no_ph
                           [complete "P" "c" 0 100] []) eq_refl)
             ([], []) ([("C", "c")],
                       ThreadState 20 [complete "C" "c" 10 20] [("C", 20)] ∅)).
    + reflexivity.
    + vm_compute. reflexivity.
Defined.

(** One name on two threads, with 80 and 20 microseconds: two records, of
    0.00008 and 0.00002 seconds. *)
Lemma one_record_per_thread_and_name_witness :
  let all_threads := [(Int 1, [("n", 80)]); (Int 2, [("n", 20)])] in
  let categories := [("n", "c")] in
  create_event_objects (all_threads, categories) =
    Ok [OutputRecord "n" "c" (Int 1) (S754_finite false 5902958103587057 (-66));
        OutputRecord "n" "c" (Int 2) (S754_finite false 5902958103587057 (-68))] /\
  exists objs,
    create_event_objects (all_threads, categories) = Ok objs /\
    Forall2 (is_record_of categories) (table_entries all_threads) objs /\
    NoDup (map (fun o => (THREAD o, EVENT_NAME o)) objs).
Proof.
  intros all_threads categories. split; [vm_compute; reflexivity|].
  destruct (one_record_per_thread_and_name all_threads categories)
    as (objs & Hobjs & Hrec & Hnd & _).
  - apply (bool_decide_unpack _). vm_compute. exact I.
  - intros t times Hin. apply (bool_decide_unpack _). unfold all_threads in Hin.
    repeat (apply elem_of_cons in Hin as [[= -> ->]|Hin];
            [vm_compute; exact I|]).
    by apply elem_of_nil in Hin.
  - repeat constructor; by eexists.
  - exists objs. split; [exact Hobjs|]. split; [exact Hrec|exact Hnd].
Defined.

(** The child and the parent on thread 1; on thread 2, a Complete event
    without [cat] after a begin event. *)
Lemma categories_cover_self_times_witness :
  let threads := [(Int 1, [complete "C" "c" 10 20; complete "P" "c" 0 100])] in
  let all_threads := [(Int 1, [("C", 20); ("P", 80)])] in
  let categories := [("C", "c"); ("P", "c")] in
  let no_cat := event_of (Some "Q") None (Some "X") (Some 0) (Some 1) None in
  get_times threads = Ok (all_threads, categories) /\
  (forall t times n, (t, times) ∈ all_threads -> dict_has n times = true ->
                     dict_has n categories = true) /\
  (forall key,
      create_event_objects (all_threads, categories) <> Raise (KeyError key)) /\
  get_times (threads ++ (Int 2, [begin "b" "z" 5] ++ no_cat :: []) :: [])
    = Raise (KeyError (Str "cat")).
Proof.
  intros threads all_threads categories no_cat.
  assert (Hrun : get_times threads = Ok (all_threads, categories))
    by (vm_compute; reflexivity).
  destruct (proj1 (categories_cover_self_times threads) _ _ Hrun)
    as [Hnames Hkey].
  split; [exact Hrun|]. split; [exact Hnames|]. split; [exact Hkey|].
  apply (proj2 (proj2 (categories_cover_self_times _))
           threads (Int 2) [begin "b" "z" 5] no_cat [] []
           (all_threads, categories) (categories, init_thread)).
  - reflexivity.
  - exact Hrun.
  - reflexivity.
  - reflexivity.
  - by eexists.
  - by eexists.
  - reflexivity.
Defined.

(** * More of the program *)

(** ** get_data: grouping and failures *)

Lemma get_data_line_Raise s line err :
  get_data_line s line = Raise err ->
  (err = KeyError (Str "name") /\ is_Some (cat line) /\ name line = None) \/
  (err = IncorrectProfileFormatError /\ tid line = None).
Proof.
  destruct s as [cats threads]. unfold get_data_line.
  destruct (cat line) as [c|] eqn:Hc; simpl.
  - destruct (dict_has c cats) eqn:Hhas; simpl.
    + unfold dict_has in Hhas.
      destruct (dict_get c cats) as [names|]; [|discriminate]. simpl.
      destruct (name line) as [n|]; simpl; [|intros [= <-]; left; eauto].
      destruct (tid line) as [a|]; simpl; [|intros [= <-]; by right].
      unfold dict_has. destruct (dict_get a threads) as [events|] eqn:Hget;
        simpl; [by rewrite Hget|].
      by rewrite dict_get_set_eq.
    + rewrite dict_get_set_eq. simpl.
      destruct (name line) as [n|]; simpl; [|intros [= <-]; left; eauto].
      destruct (tid line) as [a|]; simpl; [|intros [= <-]; by right].
      unfold dict_has. destruct (dict_get a threads) as [events|] eqn:Hget;
        simpl; [by rewrite Hget|].
      by rewrite dict_get_set_eq.
  - destruct (tid line) as [a|]; simpl; [|intros [= <-]; by right].
    unfold dict_has. destruct (dict_get a threads) as [events|] eqn:Hget;
      simpl; [by rewrite Hget|].
    by rewrite dict_get_set_eq.
Qed.

Lemma get_data_line_total s line :
  is_Some (tid line) -> (is_Some (cat line) -> is_Some (name line)) ->
  exists s', get_data_line s line = Ok s'.
Proof.
  intros [a Ha] Hname.
  destruct (get_data_line s line) as [s'|err] eqn:Hrun; [eauto|].
  apply get_data_line_Raise in Hrun as [(_ & Hc & Hn)|[_ Hnone]].
  - destruct (Hname Hc) as [n Hn']. congruence.
  - congruence.
Qed.

Lemma foldM_get_data_line_wf lines : forall s s',
  foldM get_data_line s lines = Ok s' ->
  dict_wf (snd s) -> dict_wf (snd s').
Proof.
  induction lines as [|line lines IH]; intros [cats threads] s'; cbn [foldM].
  - by intros [= <-].
  - destruct (get_data_line (cats, threads) line) as [[cats1 threads1]|err]
      eqn:Hline; [|intros [=]].
    cbn [mbind result_bind]. intros Hrun Hwf. apply (IH _ _ Hrun).
    apply get_data_line_Ok in Hline as (a & _ & -> & _).
    by apply dict_wf_set.
Qed.

Lemma foldM_get_data_line_Ok_iff lines : forall s,
  (exists s', foldM get_data_line s lines = Ok s') <->
  Forall (fun l => is_Some (tid l) /\ (is_Some (cat l) -> is_Some (name l)))
         lines.
Proof.
  induction lines as [|line lines IH]; intros s; cbn [foldM].
  - split; [constructor|eauto].
  - split.
    + intros [s' Hrun].
      destruct (get_data_line s line) as [s1|err] eqn:Hline; [|discriminate].
      cbn [mbind result_bind] in Hrun. constructor.
      * destruct s as [cats threads].
        apply get_data_line_Ok in Hline as (a & Ha & _ & Hname). eauto.
      * apply (IH s1). eauto.
    + intros [[Htid Hname] Hrest]%Forall_cons.
      destruct (get_data_line_total s line Htid Hname) as [s1 ->].
      cbn [mbind result_bind]. by apply IH.
Qed.


(** X1: [get_data] returns the build id of the document and groups the
    records by thread in arrival order: the list of a thread is the list of
    the records with that [tid], in the order of the file, whatever their
    phase; a thread without a record has no entry; keys are unique. *)
Theorem get_data_groups_by_thread id lines res :
  get_data (Some (Document (Some (OtherData (Some id))) (Some lines))) = Ok res ->
  fst res = id /\
  dict_wf (snd res) /\
  (forall t,
      dict_get t (snd res) =
      match List.filter (fun l => bool_decide (tid l = Some t)) lines with
      | [] => None
      | events => Some events
      end) /\
  (forall t, dict_has t (snd res) = true <->
             exists line, line ∈ lines /\ tid line = Some t).
Proof.
  intros (cats & Hrun & Hid)%get_data_Ok_lines.
  assert (Hget : forall t,
             dict_get t (snd res) =
             match List.filter (fun l => bool_decide (tid l = Some t)) lines with
             | [] => None
             | events => Some events
             end).
  { intros t. apply (foldM_get_data_line_threads t) in Hrun.
    cbn [snd dict_get default app] in Hrun. rewrite Hrun.
    by destruct (List.filter _ lines). }
  split_and!; [done| |done|].
  - apply (foldM_get_data_line_wf _ _ _ Hrun). constructor.
  - intros t. unfold dict_has. rewrite Hget.
    destruct (List.filter _ lines) as [|e events] eqn:Hfilter; simpl.
    + split; [discriminate|]. intros (line & Hin & Htid). exfalso.
      assert (Hl : In line (List.filter
                (fun l => bool_decide (tid l = Some t)) lines)).
      { apply filter_In. split; [by apply list_elem_of_In|].
        by apply bool_decide_eq_true. }
      by rewrite Hfilter in Hl.
    + split; [|done]. intros _. exists e.
      assert (Hl : In e (List.filter
                (fun l => bool_decide (tid l = Some t)) lines))
        by (rewrite Hfilter; by left).
      apply filter_In in Hl as [Hin Htid]. split; [by apply list_elem_of_In|].
      by apply bool_decide_eq_true in Htid.
Qed.

(** X2: [get_data] returns exactly when the file decodes to a document
    with [otherData], [traceEvents] and a [build_id], every record has a
    [tid], and every record with a [cat] has a [name]. *)
Theorem get_data_Ok_iff file :
  (exists res, get_data file = Ok res) <->
  exists id lines,
    file = Some (Document (Some (OtherData (Some id))) (Some lines)) /\
    Forall (fun l => is_Some (tid l) /\ (is_Some (cat l) -> is_Some (name l)))
           lines.
Proof.
  split.
  - intros [res Hrun].
    destruct file as [[[[[id|]]|] [lines|]]|];
      try (unfold get_data, get_data_body in Hrun; simpl in Hrun; discriminate).
    exists id, lines. split; [done|].
    apply get_data_Ok_lines in Hrun as (cats & Hrun & _).
    apply (foldM_get_data_line_Ok_iff lines ([], [])). eauto.
  - intros (id & lines & -> & Hlines).
    apply (foldM_get_data_line_Ok_iff lines ([], [])) in Hlines
      as [[cats threads] Hrun].
    exists (id, threads). unfold get_data, get_data_body. simpl.
    by rewrite Hrun.
Qed.


(** ** get_times: threads are independent *)

(** The loop over a thread reads the categories nowhere: from another
    mapping it goes through the same states. *)
Lemma process_event_categories_indep categories1 categories2 st event s1 :
  process_event (categories1, st) event = Ok s1 ->
  exists categories2',
    process_event (categories2, st) event = Ok (categories2', snd s1).
Proof.
  unfold process_event.
  destruct (ph event) as [p|]; simpl; [|discriminate].
  destruct (String.eqb p "X"); [|intros [= <-]; eauto].
  destruct (ts event) as [t|]; simpl; [|discriminate].
  destruct (dur event) as [d|]; simpl; [|discriminate].
  unfold record_category.
  destruct (cat event) as [c|]; simpl; [|discriminate].
  destruct (name event) as [n|]; simpl; [|discriminate].
  destruct (overlap_subtraction st event d) as [[seen' self_time]|err];
    simpl; [|discriminate].
  destruct (accumulate (event_times st) event self_time) as [event_times'|err];
    simpl; [|discriminate].
  intros [= <-]. eauto.
Qed.

Lemma foldM_process_event_categories_indep events :
  forall categories1 categories2 st s1,
  foldM process_event (categories1, st) events = Ok s1 ->
  exists categories2',
    foldM process_event (categories2, st) events = Ok (categories2', snd s1).
Proof.
  induction events as [|event events IH]; intros categories1 categories2 st s1;
    cbn [foldM].
  - intros [= <-]. eauto.
  - destruct (process_event (categories1, st) event) as [[c1 st1]|err]
      eqn:Hstep; [|intros [=]].
    cbn [mbind result_bind]. intros Hrun.
    destruct (process_event_categories_indep _ categories2 _ _ _ Hstep)
      as [c2 ->].
    cbn [mbind result_bind snd]. by apply (IH c1).
Qed.

Lemma foldM_process_thread_get_other t threads : forall s s',
  t ∉ dict_keys threads ->
  foldM process_thread s threads = Ok s' ->
  dict_get t (fst s') = dict_get t (fst s).
Proof.
  induction threads as [|[thread events] threads IH]; intros s s' Hnotin;
    cbn [foldM].
  - by intros [= <-].
  - destruct s as [all_threads categories].
    destruct (process_thread (all_threads, categories) (thread, events))
      as [s1|err] eqn:Hthread; [|intros [=]].
    apply process_thread_Ok in Hthread as (categories1 & st1 & _ & ->).
    cbn [mbind result_bind]. intros Hrun.
    cbn [dict_keys map fst] in Hnotin. apply not_elem_of_cons in Hnotin as [Hne Hnotin].
    rewrite (IH _ _ Hnotin Hrun). cbn [fst]. by rewrite dict_get_set_ne.
Qed.

Lemma foldM_process_thread_entry threads : forall s s' t events,
  dict_wf threads ->
  foldM process_thread s threads = Ok s' ->
  (t, events) ∈ threads ->
  exists categories categories' st,
    foldM process_event (categories, init_thread) events
      = Ok (categories', st) /\
    dict_get t (fst s') = Some (event_times st).
Proof.
  unfold dict_wf.
  induction threads as [|[thread events0] threads IH];
    intros s s' t events Hwf; cbn [foldM].
  - by intros _ ?%elem_of_nil.
  - destruct s as [all_threads categories].
    destruct (process_thread (all_threads, categories) (thread, events0))
      as [s1|err] eqn:Hthread; [|intros [=]].
    apply process_thread_Ok in Hthread as (categories1 & st1 & Hevents & ->).
    cbn [mbind result_bind]. intros Hrun.
    cbn [dict_keys map fst] in Hwf. apply NoDup_cons in Hwf as [Hnotin Hwf].
    intros [[= -> ->]|Hin]%elem_of_cons.
    + exists categories, categories1, st1. split; [done|].
      rewrite (foldM_process_thread_get_other thread threads _ _ Hnotin Hrun).
      cbn [fst]. by rewrite dict_get_set_eq.
    + by apply (IH _ _ _ _ Hwf Hrun).
Qed.

Lemma foldM_process_thread_keys threads : forall s s',
  NoDup (dict_keys (fst s) ++ dict_keys threads) ->
  foldM process_thread s threads = Ok s' ->
  dict_keys (fst s') = dict_keys (fst s) ++ dict_keys threads.
Proof.
  induction threads as [|[thread events] threads IH]; intros s s' Hnd;
    cbn [foldM].
  - intros [= <-]. by rewrite app_nil_r.
  - destruct s as [all_threads categories].
    destruct (process_thread (all_threads, categories) (thread, events))
      as [s1|err] eqn:Hthread; [|intros [=]].
    apply process_thread_Ok in Hthread as (categories1 & st1 & _ & ->).
    cbn [mbind result_bind]. intros Hrun. cbn [fst dict_keys map] in *.
    assert (Hkeys : dict_keys (dict_set thread (event_times st1) all_threads)
                    = dict_keys all_threads ++ [thread]).
    { rewrite dict_keys_set. destruct (dict_has thread all_threads) eqn:Hhas;
        [|done].
      exfalso. apply dict_has_keys in Hhas.
      apply NoDup_app in Hnd as (_ & Hdisj & _).
      apply (Hdisj thread Hhas). apply elem_of_cons. by left. }
    rewrite (IH (dict_set thread (event_times st1) all_threads, categories1) s').
    + cbn [fst]. unfold dict_keys in *. rewrite Hkeys, <- app_assoc. done.
    + cbn [fst]. unfold dict_keys in *. rewrite Hkeys, <- app_assoc. done.
    + done.
Qed.

(** X4: the table of a thread depends on the events of that thread only:
    it is the table [get_times] gives for the thread alone, whatever the
    other threads hold. *)
Theorem get_times_thread_isolated threads all_threads categories t events :
  dict_wf threads ->
  get_times threads = Ok (all_threads, categories) ->
  (t, events) ∈ threads ->
  exists times categories_t,
    get_times [(t, events)] = Ok ([(t, times)], categories_t) /\
    dict_get t all_threads = Some times.
Proof.
  intros Hwf Hrun Hin.
  destruct (foldM_process_thread_entry _ _ _ _ _ Hwf Hrun Hin)
    as (categories0 & categories1 & st & Hevents & Hget).
  destruct (foldM_process_event_categories_indep _ _ [] _ _ Hevents)
    as [categories_t Halone].
  exists (event_times st), categories_t. split; [|done].
  unfold get_times. cbn [foldM process_thread]. rewrite Halone. done.
Qed.

(** X5: every thread of the input has an entry in the table, in the order
    of the input; the entry of a thread without a Complete event is the
    empty table. *)
Theorem get_times_keeps_threads threads all_threads categories :
  dict_wf threads ->
  get_times threads = Ok (all_threads, categories) ->
  dict_keys all_threads = dict_keys threads /\
  (forall t events,
      (t, events) ∈ threads ->
      Forall (fun e => is_other_phase e = true) events ->
      dict_get t all_threads = Some []).
Proof.
  intros Hwf Hrun. split.
  - by apply (foldM_process_thread_keys threads ([], []) _ Hwf) in Hrun.
  - intros t events Hin Hother.
    destruct (foldM_process_thread_entry _ _ _ _ _ Hwf Hrun Hin)
      as (categories0 & categories1 & st & Hevents & Hget).
    rewrite (foldM_other_phase _ _ Hother) in Hevents.
    injection Hevents as _ <-. done.
Qed.

(** ** get_times: what is subtracted, and the totals *)

Lemma scan_sources_subset prior event low high seen c :
  c ∈ scan_sources prior event low high seen -> c ∈ prior.
Proof.
  revert seen. induction prior as [|curr prior IH]; intros seen; simpl.
  - by intros ?%elem_of_nil.
  - destruct (is_child curr event low high seen) as [[|]|err].
    + intros [->|Hin]%elem_of_cons; apply elem_of_cons; [by left|].
      right. by eapply IH.
    + intros Hin. apply elem_of_cons. right. by eapply IH.
    + by intros ?%elem_of_nil.
Qed.

Lemma sources_of_nested st event c :
  c ∈ sources_of st event -> nested_in c event /\ c ∈ all_events st.
Proof.
  unfold sources_of.
  destruct (is_complete event && (total_time st >? 0));
    [|by intros ?%elem_of_nil].
  destruct (ts event) as [low|] eqn:Hts; [|by intros ?%elem_of_nil].
  destruct (dur event) as [d|] eqn:Hd; [|by intros ?%elem_of_nil].
  intros Hin. split.
  - apply scan_sources_child in Hin
      as (tc & dc & de & Htc & Hdc & Hde & Hlow & Hhigh & Hlt).
    rewrite Hd in Hde. injection Hde as <-.
    exists tc, dc, low, d. rewrite Hts. done.
  - apply scan_sources_subset in Hin.
    by rewrite list_elem_of_In, <- in_rev, <- list_elem_of_In in Hin.
Qed.

Lemma scan_sources_complete prior event low high c tc dc de :
  ts c = Some tc -> dur c = Some dc -> dur event = Some de ->
  low < tc -> tc < high -> dc < de ->
  forall seen self_time r,
  scan prior event low high seen self_time = Ok r ->
  c ∈ prior -> text c ∉ seen ->
  text c ∈ map text (scan_sources prior event low high seen).
Proof.
  intros Htc Hdc Hde Hlow Hhigh Hlt.
  induction prior as [|curr prior IH]; intros seen self_time r; simpl.
  - by intros _ ?%elem_of_nil.
  - destruct (is_child curr event low high seen) as [[|]|err] eqn:Hchild;
      simpl; [| |discriminate].
    + destruct (dur curr) as [d|]; simpl; [|discriminate].
      intros Hscan Hin Hfresh.
      destruct (decide (text c = text curr)) as [->|Hne].
      * apply elem_of_cons. by left.
      * apply elem_of_cons. right. apply (IH _ _ _ Hscan); [|set_solver].
        apply elem_of_cons in Hin as [->|?]; [done|done].
    + intros Hscan [->|Hin]%elem_of_cons Hfresh; [|by apply (IH _ _ _ Hscan)].
      exfalso. unfold is_child in Hchild. rewrite Htc in Hchild.
      simpl in Hchild.
      assert ((tc >? low) = true) as Hgt by lia. rewrite Hgt in Hchild.
      assert ((tc <? high) = true) as Hlt' by lia. rewrite Hlt' in Hchild.
      rewrite decide_True in Hchild by done.
      rewrite Hdc, Hde in Hchild. simpl in Hchild.
      injection Hchild as Hchild. lia.
Qed.

Lemma subtractions_prior events : forall categories st s',
  foldM process_event (categories, st) events = Ok s' ->
  all_events (snd s') = all_events st ++ List.filter is_complete events /\
  forall i e srcs c,
    subtractions (categories, st) events !! i = Some (e, srcs) -> c ∈ srcs ->
    nested_in c e /\
    (c ∈ all_events st \/
     exists j s, (j < i)%nat /\
                 subtractions (categories, st) events !! j = Some (c, s)).
Proof.
  induction events as [|event events IH]; intros categories st s';
    cbn [foldM subtractions List.filter].
  - intros [= <-]. split; [by rewrite app_nil_r|].
    intros i e srcs c Hi. by rewrite lookup_nil in Hi.
  - destruct (process_event (categories, st) event) as [[categories1 st1]|err]
      eqn:Hstep; [|intros [=]].
    cbn [mbind result_bind]. intros Hrun.
    destruct (IH _ _ _ Hrun) as [Hall Hlog].
    destruct (is_complete event) eqn:Hx.
    + destruct (process_event_complete _ _ _ _ Hx Hstep)
        as (n & c0 & t & d & seen1 & self_time & event_times1
            & _ & _ & _ & _ & _ & _ & [= -> ->]).
      cbn [all_events] in *. split; [by rewrite Hall, <- app_assoc|].
      intros [|i] e srcs c Hi Hc; cbn [app snd] in Hi; simpl in Hi.
      * injection Hi as <- <-. apply sources_of_nested in Hc as [Hnest Hin].
        split; [done|by left].
      * destruct (Hlog i e srcs c Hi Hc) as [Hnest Hprior].
        split; [done|].
        destruct Hprior as [[Hin|Hin]%elem_of_app|(j & s & Hj & Hlookup)].
        -- by left.
        -- apply list_elem_of_singleton in Hin as ->. right.
           exists 0%nat, (sources_of st event). split; [lia|done].
        -- right. exists (S j), s. split; [lia|done].
    + apply (process_event_skip _ _ _ Hx) in Hstep as [= -> ->].
      cbn [app]. done.
Qed.

Lemma sum_dur_app l1 l2 : sum_dur (l1 ++ l2) = sum_dur l1 + sum_dur l2.
Proof.
  unfold sum_dur. induction l1 as [|c l1 IH]; simpl; [done|].
  rewrite IH. lia.
Qed.

Lemma sum_dur_nonneg l :
  (forall c, c ∈ l -> 0 <= default 0 (dur c)) -> 0 <= sum_dur l.
Proof.
  unfold sum_dur. induction l as [|c l IH]; intros Hpos; simpl; [done|].
  assert (0 <= default 0 (dur c)) by (apply Hpos, elem_of_cons; by left).
  assert (0 <= foldr (fun c acc => default 0 (dur c) + acc) 0 l).
  { apply IH. intros c' Hc'. apply Hpos, elem_of_cons. by right. }
  lia.
Qed.

Lemma sum_dur_submseteq l k :
  l ⊆+ k -> (forall c, c ∈ k -> 0 <= default 0 (dur c)) ->
  sum_dur l <= sum_dur k.
Proof.
  induction 1 as [|x l1 l2 _ IH|x y l|x l1 l2 _ IH|l1 l2 l3 H12 IH12 H23 IH23];
    intros Hpos.
  - done.
  - unfold sum_dur in *. simpl.
    assert (foldr (fun c acc => default 0 (dur c) + acc) 0 l1
            <= foldr (fun c acc => default 0 (dur c) + acc) 0 l2).
    { apply IH. intros c Hc. apply Hpos, elem_of_cons. by right. }
    lia.
  - unfold sum_dur. simpl. lia.
  - unfold sum_dur in *. simpl.
    assert (0 <= default 0 (dur x)) by (apply Hpos, elem_of_cons; by left).
    assert (foldr (fun c acc => default 0 (dur c) + acc) 0 l1
            <= foldr (fun c acc => default 0 (dur c) + acc) 0 l2).
    { apply IH. intros c Hc. apply Hpos, elem_of_cons. by right. }
    lia.
  - etrans; [apply IH12|by apply IH23].
    intros c Hc. apply Hpos. by eapply elem_of_submseteq.
Qed.

Lemma log_total_split log :
  log_total log = sum_dur (map fst log) - sum_dur (concat (map snd log)).
Proof.
  induction log as [|[e srcs] log IH]; [done|].
  rewrite log_total_cons, IH. cbn [map fst snd concat].
  rewrite sum_dur_app.
  change (sum_dur (e :: map fst log))
    with (default 0 (dur e) + sum_dur (map fst log)).
  lia.
Qed.

Lemma sum_values_set (d : dict string Z) k v :
  sum_values (dict_set k v d) = sum_values d - default 0 (dict_get k d) + v.
Proof.
  unfold sum_values. induction d as [|[k0 v0] d IH]; simpl; [lia|].
  destruct (decide (k = k0)) as [->|Hne]; simpl; [lia|].
  rewrite IH. lia.
Qed.

Lemma accumulate_sum event_times event self_time event_times' :
  accumulate event_times event self_time = Ok event_times' ->
  sum_values event_times' = sum_values event_times + self_time.
Proof.
  unfold accumulate. destruct (name event) as [n|]; simpl; [|discriminate].
  destruct (dict_has n event_times) eqn:Hhas; simpl; unfold dict_has in Hhas.
  - destruct (dict_get n event_times) as [old|] eqn:Hold; [|discriminate].
    simpl. intros [= <-]. rewrite sum_values_set, Hold. simpl. lia.
  - destruct (dict_get n event_times) as [old|] eqn:Hold; [discriminate|].
    rewrite dict_get_set_eq. simpl. intros [= <-].
    rewrite !sum_values_set, dict_get_set_eq, Hold. simpl. lia.
Qed.

Lemma foldM_process_event_sum events : forall categories st s',
  foldM process_event (categories, st) events = Ok s' ->
  sum_values (event_times (snd s')) - total_time (snd s') =
  sum_values (event_times st) - total_time st.
Proof.
  induction events as [|event events IH]; intros categories st s'; cbn [foldM].
  - by intros [= <-].
  - destruct (process_event (categories, st) event) as [[categories1 st1]|err]
      eqn:Hstep; [|intros [=]].
    cbn [mbind result_bind]. intros Hrun. rewrite (IH _ _ _ Hrun).
    destruct (is_complete event) eqn:Hx.
    + destruct (process_event_complete _ _ _ _ Hx Hstep)
        as (n & c0 & t & d & seen1 & self_time & event_times1
            & _ & _ & _ & _ & _ & Hacc & [= _ ->]).
      apply accumulate_sum in Hacc. cbn [event_times total_time]. lia.
    + by apply (process_event_skip _ _ _ Hx) in Hstep as [= _ ->].
Qed.

(** The sum of a thread's table from the durations: what the thread run
    alone gives, between 0 and the sum of the durations. *)
Lemma thread_total_bounds categories events s' :
  foldM process_event (categories, init_thread) events = Ok s' ->
  Forall (fun e => is_complete e = true -> 0 <= default 0 (dur e)) events ->
  0 <= sum_values (event_times (snd s'))
    <= sum_dur (List.filter is_complete events).
Proof.
  intros Hrun Hpos. destruct s' as [categories' st'].
  pose proof (foldM_process_event_sum _ _ _ _ Hrun) as Hsum.
  destruct (subtractions_invariant _ _ _ _ _ Hrun)
    as (Hnd & _ & _ & Htot & Hfst).
  destruct (subtractions_prior _ _ _ _ Hrun) as [_ Hprior].
  cbn [snd event_times total_time init_thread sum_values foldr] in *.
  set (log := subtractions (categories, init_thread) events) in *.
  rewrite log_total_split, Hfst in Htot.
  assert (Hcomplete : forall c, c ∈ List.filter is_complete events ->
                                0 <= default 0 (dur c)).
  { intros c Hc. apply list_elem_of_In, filter_In in Hc as [Hin Hx].
    rewrite Forall_forall in Hpos. apply Hpos; [by apply list_elem_of_In|done]. }
  assert (Hused : forall c, c ∈ concat (map snd log) ->
                            c ∈ List.filter is_complete events).
  { intros c (srcs & Hsrcs & Hc)%list_elem_of_In%in_concat.
    apply in_map_iff in Hsrcs as ([e srcs'] & <- & He).
    apply list_elem_of_In, list_elem_of_lookup in He as [i Hi].
    destruct (Hprior i e srcs' c Hi) as [_ [Hin|(j & s & _ & Hj)]];
      [by apply list_elem_of_In| by apply elem_of_nil in Hin|].
    rewrite <- Hfst. apply list_elem_of_fmap. exists (c, s). split; [done|].
    by eapply list_elem_of_lookup_2. }
  assert (0 <= sum_dur (concat (map snd log))).
  { apply sum_dur_nonneg. intros c Hc. by apply Hcomplete, Hused. }
  assert (sum_dur (concat (map snd log))
          <= sum_dur (List.filter is_complete events)).
  { apply sum_dur_submseteq; [|done].
    apply NoDup_submseteq; [by apply (NoDup_fmap_1 text)|done]. }
  lia.
Qed.

(** X6: when no Complete event of a thread has a negative duration, the
    self-times of the thread's table add up to a value between 0 and the
    sum of the durations of the thread's Complete events, though a single
    self-time may be negative: the events subtracted have pairwise
    distinct texts, so each is an earlier event of the thread counted
    once. *)
Theorem get_times_thread_total_bounds threads all_threads categories t events :
  dict_wf threads ->
  get_times threads = Ok (all_threads, categories) ->
  (t, events) ∈ threads ->
  Forall (fun e => is_complete e = true -> 0 <= default 0 (dur e)) events ->
  exists times,
    dict_get t all_threads = Some times /\
    0 <= sum_values times <= sum_dur (List.filter is_complete events).
Proof.
  intros Hwf Hrun Hin Hpos.
  destruct (foldM_process_thread_entry _ _ _ _ _ Hwf Hrun Hin)
    as (categories0 & categories1 & st & Hevents & Hget).
  exists (event_times st). split; [done|].
  by apply (thread_total_bounds _ _ _ Hevents).
Qed.

(** X7: only earlier, nested events are subtracted: an event subtracted
    from a Complete event of a timeline is (a record equal, text
    included, to) a Complete event that comes earlier in the timeline, its
    timestamp is strictly inside the interval of the later event and it is
    strictly shorter. *)
Theorem subtracted_events_are_nested_and_earlier categories events s' :
  foldM process_event (categories, init_thread) events = Ok s' ->
  forall i e srcs c,
    subtractions (categories, init_thread) events !! i = Some (e, srcs) ->
    c ∈ srcs ->
    nested_in c e /\
    exists j s, (j < i)%nat /\
                subtractions (categories, init_thread) events !! j = Some (c, s).
Proof.
  intros Hrun i e srcs c Hi Hc.
  destruct (subtractions_prior _ _ _ _ Hrun) as [_ Hprior].
  destruct (Hprior i e srcs c Hi Hc) as [Hnest [Hin|Hearlier]]; [|done].
  by apply elem_of_nil in Hin.
Qed.

Lemma subtractions_no_nesting categories events s' :
  foldM process_event (categories, init_thread) events = Ok s' ->
  (forall i j c e,
      (i < j)%nat ->
      List.filter is_complete events !! i = Some c ->
      List.filter is_complete events !! j = Some e ->
      ~ nested_in c e) ->
  subtractions (categories, init_thread) events =
  map (fun e => (e, [])) (List.filter is_complete events).
Proof.
  intros Hrun Hflat.
  destruct s' as [categories' st'].
  destruct (subtractions_invariant _ _ _ _ _ Hrun) as (_ & _ & _ & _ & Hfst).
  destruct (subtractions_prior _ _ _ _ Hrun) as [_ Hprior].
  set (log := subtractions (categories, init_thread) events) in *.
  rewrite <- Hfst in Hflat |- *. rewrite map_map.
  assert (Hempty : forall i e srcs, log !! i = Some (e, srcs) -> srcs = []).
  { intros i e srcs Hi. destruct srcs as [|c srcs]; [done|]. exfalso.
    destruct (Hprior i e (c :: srcs) c Hi) as [Hnest [Hin|(j & s & Hj & Hlj)]];
      [apply elem_of_cons; by left|by apply elem_of_nil in Hin|].
    apply (Hflat j i c e Hj); [| |done].
    - by rewrite list_lookup_fmap, Hlj.
    - by rewrite list_lookup_fmap, Hi. }
  clearbody log. clear -Hempty.
  induction log as [|[e srcs] log IH]; [done|]. cbn [map fst]. f_equal.
  - by rewrite (Hempty 0%nat e srcs eq_refl).
  - apply IH. intros i e' srcs' Hi. by apply (Hempty (S i) e' srcs').
Qed.

Lemma concat_no_sources (l : list trace_event) :
  concat (map snd (map (fun e => (e, @nil trace_event)) l)) = [].
Proof. induction l as [|e l IH]; [done|]. simpl. exact IH. Qed.

(** X8: when no Complete event of a thread is nested in a later Complete
    event of the thread, nothing is subtracted: the self-times of the
    thread's table add up to the sum of the durations, and the entry of
    a name is the sum of the durations of the Complete events of that
    name. *)
Theorem get_times_without_nesting threads all_threads categories t events :
  dict_wf threads ->
  get_times threads = Ok (all_threads, categories) ->
  (t, events) ∈ threads ->
  (forall i j c e,
      (i < j)%nat ->
      List.filter is_complete events !! i = Some c ->
      List.filter is_complete events !! j = Some e ->
      ~ nested_in c e) ->
  exists times,
    dict_get t all_threads = Some times /\
    sum_values times = sum_dur (List.filter is_complete events) /\
    (forall n, dict_get n times =
               table_entry n None
                 (map (fun e => (e, [])) (List.filter is_complete events))).
Proof.
  intros Hwf Hrun Hin Hflat.
  destruct (foldM_process_thread_entry _ _ _ _ _ Hwf Hrun Hin)
    as (categories0 & categories1 & st & Hevents & Hget).
  exists (event_times st). split; [done|].
  pose proof (subtractions_no_nesting _ _ _ Hevents Hflat) as Hlog.
  split.
  - pose proof (foldM_process_event_sum _ _ _ _ Hevents) as Hsum.
    destruct (subtractions_invariant _ _ _ _ _ Hevents)
      as (_ & _ & _ & Htot & _).
    cbn [snd event_times total_time init_thread sum_values foldr] in *.
    rewrite Hlog, log_total_split, map_map in Htot. cbn [fst snd] in Htot.
    rewrite map_id in Htot.
    rewrite concat_no_sources in Htot. unfold sum_dur at 2 in Htot. simpl in Htot. lia.
  - intros n. apply (event_times_from_log n) in Hevents.
    cbn [snd event_times init_thread dict_get] in Hevents.
    by rewrite Hevents, Hlog.
Qed.

(** X9: the scan takes every qualifying event, not the closest one only:
    when a Complete event is processed with a positive running total,
    every earlier Complete event of the thread that is nested in it and
    whose text is not in [seen] is subtracted from it, unless a record
    with the same text was met first by the scan and subtracted in its
    place; either way its text is in [seen] afterwards. *)
Theorem every_nested_unused_event_is_subtracted categories pre categories1 st
    event s' :
  foldM process_event (categories, init_thread) pre = Ok (categories1, st) ->
  process_event (categories1, st) event = Ok s' ->
  is_complete event = true -> 0 < total_time st ->
  forall c,
    c ∈ List.filter is_complete pre -> text c ∉ seen st -> nested_in c event ->
    (exists c', c' ∈ sources_of st event /\ text c' = text c) /\
    text c ∈ seen (snd s').
Proof.
  intros Hpre Hstep Hx Htotal c Hc Hfresh
    (tc & dc & t & d & Htc & Hdc & Ht & Hd & Hlow & Hhigh & Hlt).
  destruct (subtractions_prior _ _ _ _ Hpre) as [Hall _].
  cbn [snd all_events init_thread app] in Hall.
  destruct (process_event_complete _ _ _ _ Hx Hstep)
    as (n & c0 & t' & d' & seen1 & self_time & event_times1
        & _ & _ & Ht' & Hd' & Hself & _ & ->).
  rewrite Ht in Ht'. injection Ht' as <-.
  rewrite Hd in Hd'. injection Hd' as <-.
  destruct (overlap_subtraction_sources _ _ _ _ _ Hx Hd Hself) as (Hseen & _).
  assert (Hin : text c ∈ map text (sources_of st event)).
  { unfold sources_of. rewrite Hx, Ht, Hd.
    unfold overlap_subtraction in Hself. rewrite Ht, Hd in Hself.
    assert ((total_time st >? 0) = true) as Hgt by lia.
    rewrite Hgt in *. simpl in Hself. cbn [andb].
    apply (scan_sources_complete _ _ _ _ c tc dc d Htc Hdc Hd Hlow Hhigh Hlt
             _ _ _ Hself); [|done].
    rewrite list_elem_of_In, <- in_rev, <- list_elem_of_In. by rewrite Hall. }
  split.
  - apply list_elem_of_fmap in Hin as (c' & Heq & Hc'). by exists c'.
  - cbn [snd seen]. rewrite Hseen. apply elem_of_union. left.
    by apply elem_of_list_to_set.
Qed.

(** ** create_event_objects: when it fails *)

(** X10: [create_event_objects] returns exactly when every name of the
    table has a category and every time converts to a float; when it
    fails, the exception is the [KeyError] for a name of the table that has
    no category, or the [OverflowError] of a time too large for a float. *)
Theorem create_event_objects_Ok_iff all_threads categories :
  ((exists objs, create_event_objects (all_threads, categories) = Ok objs) <->
   Forall (fun entry => is_Some (dict_get (snd (fst entry)) categories) /\
                        is_ok (float_of_int (snd entry)) = true)
          (table_entries all_threads)) /\
  (forall err,
      create_event_objects (all_threads, categories) = Raise err ->
      (exists entry, entry ∈ table_entries all_threads /\
                     dict_get (snd (fst entry)) categories = None /\
                     err = KeyError (Str (snd (fst entry)))) \/
      (exists entry, entry ∈ table_entries all_threads /\
                     float_of_int (snd entry) = Raise OverflowError /\
                     err = OverflowError)).
Proof.
  unfold create_event_objects.
  assert (Hraise : forall err,
    foldM (create_thread_objects categories) [] all_threads = Raise err ->
    (exists entry, entry ∈ table_entries all_threads /\
                   dict_get (snd (fst entry)) categories = None /\
                   err = KeyError (Str (snd (fst entry)))) \/
    (exists entry, entry ∈ table_entries all_threads /\
                   float_of_int (snd entry) = Raise OverflowError /\
                   err = OverflowError)).
  { intros err (entry & Hin & Hbad)%create_event_objects_Raise.
    destruct Hbad as [[Hnone ->]|[Hf ->]]; [left|right]; by exists entry. }
  split; [|done]. split.
  - intros [objs (new & -> & Hrec)%create_event_objects_Ok].
    clear Hraise. induction Hrec as [|entry o entries objs Ho _ IH];
      constructor; [|done].
    destruct Ho as (_ & _ & Hcat & f & Hf & _). rewrite Hcat, Hf. eauto.
  - intros Hall.
    destruct (foldM (create_thread_objects categories) [] all_threads)
      as [objs|err] eqn:Hrun; [eauto|].
    exfalso. rewrite Forall_forall in Hall.
    destruct (Hraise err eq_refl) as [(entry & Hin & Hnone & _)
                                     |(entry & Hin & Hf & _)];
      apply Hall in Hin as [[c Hc] Hok].
    + congruence.
    + by rewrite Hf in Hok.
Qed.

(** ** The patterns: [re_match] and [re_search] decide the language *)

Lemma matches_Void_inv w : matches Void w <-> False.
Proof. split; [inversion 1|done]. Qed.

Lemma matches_Eps_inv w : matches Eps w <-> w = [].
Proof. split; [by inversion 1|intros ->; constructor]. Qed.

Lemma matches_Chr_inv c w : matches (Chr c) w <-> w = [c].
Proof. split; [by inversion 1|intros ->; constructor]. Qed.

Lemma matches_AnyChar_inv w :
  matches AnyChar w <-> exists c, w = [c] /\ c <> newline.
Proof.
  split; [inversion 1; eauto|intros (c & -> & Hc); by constructor].
Qed.

Lemma matches_Range_inv lo hi w :
  matches (Range lo hi) w <-> exists c, w = [c] /\ in_range lo hi c = true.
Proof.
  split; [inversion 1; eauto|intros (c & -> & Hc); by constructor].
Qed.

Lemma matches_Cat_inv r1 r2 w :
  matches (Cat r1 r2) w <->
  exists w1 w2, w = w1 ++ w2 /\ matches r1 w1 /\ matches r2 w2.
Proof.
  split; [inversion 1; subst; eauto|].
  intros (w1 & w2 & -> & H1 & H2). by constructor.
Qed.

Lemma matches_Alt_inv r1 r2 w :
  matches (Alt r1 r2) w <-> matches r1 w \/ matches r2 w.
Proof.
  split; [inversion 1; subst; eauto|].
  intros [H|H]; [by apply matches_Alt_l|by apply matches_Alt_r].
Qed.

Lemma nullable_spec r : nullable r = true <-> matches r [].
Proof.
  induction r as [| | | | |r1 IH1 r2 IH2|r1 IH1 r2 IH2|r IH]; simpl.
  - rewrite matches_Void_inv. split; [discriminate|done].
  - rewrite matches_Eps_inv. done.
  - rewrite matches_Chr_inv. split; discriminate.
  - rewrite matches_AnyChar_inv. split; [discriminate|].
    by intros (c & [=] & _).
  - rewrite matches_Range_inv. split; [discriminate|].
    by intros (c & [=] & _).
  - rewrite andb_true_iff, IH1, IH2, matches_Cat_inv. split.
    + intros [H1 H2]. by exists [], [].
    + intros (w1 & w2 & Hw & H1 & H2).
      symmetry in Hw. apply app_eq_nil in Hw as [-> ->]. done.
  - rewrite orb_true_iff, IH1, IH2, matches_Alt_inv. done.
  - split; [intros _; constructor|done].
Qed.

Lemma matches_Star_cons r c w :
  matches (Star r) (c :: w) ->
  exists w1 w2, w = w1 ++ w2 /\ matches r (c :: w1) /\ matches (Star r) w2.
Proof.
  intros H. remember (Star r) as r' eqn:Hr. remember (c :: w) as cw eqn:Hw.
  revert Hw. induction H as [| | | | | | | |r0 w1 w2 H1 _ H2 IH2];
    try discriminate; intros Hw.
  injection Hr as ->. destruct w1 as [|c1 w1].
  - by apply IH2.
  - injection Hw as -> <-. by exists w1, w2.
Qed.

Lemma deriv_spec r : forall c w, matches (deriv c r) w <-> matches r (c :: w).
Proof.
  induction r as [| |c'| |lo hi|r1 IH1 r2 IH2|r1 IH1 r2 IH2|r IH];
    intros c w; simpl.
  - by rewrite !matches_Void_inv.
  - rewrite matches_Void_inv, matches_Eps_inv. split; [done|discriminate].
  - rewrite matches_Chr_inv. destruct (decide (c = c')) as [->|Hne].
    + rewrite matches_Eps_inv. split; [by intros ->|by intros [= ->]].
    + rewrite matches_Void_inv. split; [done|]. intros [= ? _]. done.
  - rewrite matches_AnyChar_inv. destruct (decide (c = newline)) as [->|Hne].
    + rewrite matches_Void_inv. split; [done|]. intros (c' & [= <- _] & Hc).
      done.
    + rewrite matches_Eps_inv. split; [intros ->; eauto|].
      by intros (c' & [= _ ->] & _).
  - rewrite matches_Range_inv. destruct (in_range lo hi c) eqn:Hin.
    + rewrite matches_Eps_inv. split; [intros ->; eauto|].
      by intros (c' & [= _ ->] & _).
    + rewrite matches_Void_inv. split; [done|]. intros (c' & [= <- _] & Hc).
      congruence.
  - assert (Hsplit :
      matches (Cat r1 r2) (c :: w) <->
      (exists w1 w2, w = w1 ++ w2 /\ matches r1 (c :: w1) /\ matches r2 w2) \/
      (matches r1 [] /\ matches r2 (c :: w))).
    { rewrite matches_Cat_inv. split.
      - intros (v1 & v2 & Hv & H1 & H2). destruct v1 as [|c1 v1].
        + right. simpl in Hv. by subst v2.
        + injection Hv as <- ->. left. by exists v1, v2.
      - intros [(w1 & w2 & -> & H1 & H2)|[H1 H2]].
        + by exists (c :: w1), w2.
        + by exists [], (c :: w). }
    rewrite Hsplit. destruct (nullable r1) eqn:Hnull.
    + rewrite matches_Alt_inv, matches_Cat_inv, IH2.
      apply nullable_spec in Hnull. split.
      * intros [(w1 & w2 & -> & H1 & H2)|H2]; [left|right; done].
        exists w1, w2. by rewrite <- IH1.
      * intros [(w1 & w2 & -> & H1 & H2)|[_ H2]]; [left|right; done].
        exists w1, w2. by rewrite IH1.
    + rewrite matches_Cat_inv. split.
      * intros (w1 & w2 & -> & H1 & H2). left. exists w1, w2.
        by rewrite <- IH1.
      * intros [(w1 & w2 & -> & H1 & H2)|[H1 _]].
        -- exists w1, w2. by rewrite IH1.
        -- apply nullable_spec in H1. congruence.
  - by rewrite !matches_Alt_inv, IH1, IH2.
  - rewrite matches_Cat_inv. split.
    + intros (w1 & w2 & -> & H1 & H2). apply IH in H1.
      by apply (matches_Star_app r (c :: w1) w2).
    + intros (w1 & w2 & -> & H1 & H2)%matches_Star_cons.
      exists w1, w2. by rewrite IH.
Qed.

Lemma re_match_spec w : forall r,
  re_match r w = true <-> exists p t, w = p ++ t /\ matches r p.
Proof.
  induction w as [|c w IH]; intros r; simpl.
  - rewrite orb_false_r, nullable_spec. split.
    + intros H. by exists [], [].
    + intros (p & t & Hw & H). symmetry in Hw.
      apply app_eq_nil in Hw as [-> ->]. done.
  - rewrite orb_true_iff, nullable_spec, IH. split.
    + intros [H|(p & t & -> & H)].
      * by exists [], (c :: w).
      * exists (c :: p), t. split; [done|]. by apply deriv_spec.
    + intros (p & t & Hw & H). destruct p as [|c' p].
      * by left.
      * injection Hw as <- ->. right. exists p, t. split; [done|].
        by apply deriv_spec.
Qed.

Lemma re_search_spec r w : forall i,
  re_search r w = Some i <->
  (i <= length w)%nat /\ re_match r (drop i w) = true /\
  forall k, (k < i)%nat -> re_match r (drop k w) = false.
Proof.
  induction w as [|c w IH]; intros i; cbn [re_search].
  - destruct (re_match r []) eqn:Hm.
    + split.
      * intros [= <-]. split_and!; [done|done|lia].
      * intros (Hi & _ & _). cbn [length] in Hi. f_equal. lia.
    + split; [discriminate|]. intros (_ & Hi & _).
      rewrite drop_nil in Hi. congruence.
  - destruct (re_match r (c :: w)) eqn:Hm.
    + split.
      * intros [= <-]. split_and!; [cbn [length]; lia|done|lia].
      * intros (_ & _ & Hk). destruct i as [|i]; [done|].
        specialize (Hk 0%nat ltac:(lia)). rewrite drop_0 in Hk. congruence.
    + destruct i as [|i].
      * split.
        -- destruct (re_search r w); discriminate.
        -- intros (_ & Hi & _). rewrite drop_0 in Hi. congruence.
      * specialize (IH i). split.
        -- intros Hs. destruct (re_search r w) as [j|] eqn:Hj; [|discriminate].
           injection Hs as ->. destruct IH as [(Hle & Hmi & Hk) _]; [done|].
           split_and!; [cbn [length]; lia|done|].
           intros [|k] Hlt; [by rewrite drop_0|]. cbn [drop]. apply Hk. lia.
        -- intros (Hle & Hmi & Hk). cbn [length drop] in Hle, Hmi.
           assert (re_search r w = Some i) as ->; [|done].
           apply IH. split_and!; [lia|done|].
           intros k Hlt. apply (Hk (S k)). lia.
Qed.

Lemma re_search_None r w :
  re_search r w = None <->
  forall k, (k <= length w)%nat -> re_match r (drop k w) = false.
Proof.
  induction w as [|c w IH]; cbn [re_search].
  - destruct (re_match r []) eqn:Hm.
    + split; [discriminate|]. intros Hk.
      specialize (Hk 0%nat ltac:(cbn [length]; lia)).
      rewrite drop_0 in Hk. congruence.
    + split; [|done]. intros _ k _. by rewrite drop_nil.
  - destruct (re_match r (c :: w)) eqn:Hm.
    + split; [discriminate|]. intros Hk.
      specialize (Hk 0%nat ltac:(cbn [length]; lia)).
      rewrite drop_0 in Hk. congruence.
    + destruct (re_search r w) as [j|] eqn:Hj.
      * split; [discriminate|]. intros Hk. exfalso.
        assert (Some j = @None nat) as [=].
        apply IH. intros k Hle. apply (Hk (S k)). cbn [length]. lia.
      * split; [|done]. intros _ [|k] Hle; [by rewrite drop_0|].
        cbn [drop]. apply IH; [done|]. cbn [length] in Hle. lia.
Qed.

Lemma matches_literal s w :
  matches (literal s) w <-> w = list_ascii_of_string s.
Proof.
  revert w. induction s as [|c s IH]; intros w; simpl.
  - apply matches_Eps_inv.
  - rewrite matches_Cat_inv. split.
    + intros (w1 & w2 & -> & ->%matches_Chr_inv & ->%IH). done.
    + intros ->. exists [c], (list_ascii_of_string s).
      split_and!; [done|constructor|by apply IH].
Qed.

Lemma matches_Star_AnyChar w :
  matches (Star AnyChar) w <-> Forall (fun c => c <> newline) w.
Proof.
  split.
  - intros H. remember (Star AnyChar) as r eqn:Hr.
    induction H as [| | | | | | | |r0 w1 w2 H1 _ H2 IH2]; try discriminate.
    + constructor.
    + injection Hr as ->. apply matches_AnyChar_inv in H1 as (c & -> & Hc).
      constructor; [done|]. by apply IH2.
  - induction 1 as [|c w Hc _ IH]; [constructor|].
    apply (matches_Star_app AnyChar [c] w); [by constructor|done].
Qed.

Lemma list_ascii_of_string_app a b :
  list_ascii_of_string (a +:+ b) =
  list_ascii_of_string a ++ list_ascii_of_string b.
Proof. induction a as [|c a IH]; simpl; [done|by rewrite IH]. Qed.

Lemma list_ascii_of_string_inj a b :
  list_ascii_of_string a = list_ascii_of_string b -> a = b.
Proof.
  intros H. rewrite <- (string_of_list_ascii_of_string a),
    <- (string_of_list_ascii_of_string b). by rewrite H.
Qed.

Lemma list_ascii_of_substring n s :
  list_ascii_of_string (substring 0 n s) = take n (list_ascii_of_string s).
Proof.
  revert n. induction s as [|c s IH]; intros [|n]; simpl; try done.
  by rewrite IH.
Qed.

(** ** check_path and the job name *)

Lemma check_path_regex_matches l :
  matches check_path_regex l <->
  exists mid c1 c2,
    l = list_ascii_of_string "prod/tensorflow/rel" ++ mid
        ++ list_ascii_of_string "/profile" ++ c1
        :: list_ascii_of_string "json" ++ c2 :: list_ascii_of_string "gz" /\
    Forall (fun c => c <> newline) mid /\ c1 <> newline /\ c2 <> newline.
Proof.
  unfold check_path_regex. split.
  - intros (w1 & w2 & -> & ->%matches_literal & H)%matches_Cat_inv.
    apply matches_Cat_inv in H as (mid & w3 & -> & Hmid%matches_Star_AnyChar & H).
    apply matches_Cat_inv in H as (w4 & w5 & -> & ->%matches_literal & H).
    apply matches_Cat_inv in H as (w6 & w7 & -> & H6 & H).
    apply matches_AnyChar_inv in H6 as (c1 & -> & Hc1).
    apply matches_Cat_inv in H as (w8 & w9 & -> & ->%matches_literal & H).
    apply matches_Cat_inv in H as (w10 & w11 & -> & H10 & ->%matches_literal).
    apply matches_AnyChar_inv in H10 as (c2 & -> & Hc2).
    by exists mid, c1, c2.
  - intros (mid & c1 & c2 & -> & Hmid & Hc1 & Hc2).
    apply matches_Cat; [by apply matches_literal|].
    apply matches_Cat; [by apply matches_Star_AnyChar|].
    apply matches_Cat; [by apply matches_literal|].
    apply (matches_Cat AnyChar _ [c1]); [by constructor|].
    apply matches_Cat; [by apply matches_literal|].
    apply (matches_Cat AnyChar _ [c2]); [by constructor|].
    by apply matches_literal.
Qed.

(** Lists of characters of appended strings, flattened. *)
Ltac chars :=
  repeat first
    [ rewrite list_ascii_of_string_app
    | rewrite list_ascii_of_string_of_list_ascii
    | rewrite list_ascii_of_substring
    | rewrite <- app_assoc
    | progress cbn [list_ascii_of_string app] ].

(** X11: [check_path] accepts exactly the names that start with
    "prod/tensorflow/rel" and go on, after any text without a newline,
    with "/profile", one character, "json", one character and "gz"; the
    two characters are any but the newline, not only the dot, and any text
    may follow "gz". *)
Theorem check_path_accepts_iff file_name :
  check_path file_name = true <->
  exists mid c1 c2 tail,
    file_name = "prod/tensorflow/rel" +:+ mid +:+ "/profile"
                +:+ String c1 ("json" +:+ String c2 ("gz" +:+ tail)) /\
    no_newline mid /\ c1 <> newline /\ c2 <> newline.
Proof.
  unfold check_path, no_newline. rewrite re_match_spec. split.
  - intros (p & t & Hl & (mid & c1 & c2 & -> & Hmid & Hc1 & Hc2)
                          %check_path_regex_matches).
    exists (string_of_list_ascii mid), c1, c2, (string_of_list_ascii t).
    rewrite list_ascii_of_string_of_list_ascii. split; [|done].
    apply list_ascii_of_string_inj. rewrite Hl. by chars.
  - intros (mid & c1 & c2 & tail & -> & Hmid & Hc1 & Hc2).
    exists (list_ascii_of_string "prod/tensorflow/rel"
            ++ list_ascii_of_string mid
            ++ list_ascii_of_string "/profile" ++ c1
            :: list_ascii_of_string "json" ++ c2 :: list_ascii_of_string "gz"),
      (list_ascii_of_string tail).
    split.
    + by chars.
    + apply check_path_regex_matches. by exists (list_ascii_of_string mid), c1, c2.
Qed.

Lemma re_match_job_regex w :
  re_match job_regex w = true <->
  exists d rest, w = "/"%char :: d :: rest /\ is_digit d = true.
Proof.
  rewrite re_match_spec. unfold job_regex, is_digit. split.
  - intros (p & t & -> & (w1 & w2 & -> & ->%matches_Chr_inv & H)%matches_Cat_inv).
    apply matches_Cat_inv in H as (w3 & w4 & -> & H3 & _).
    apply matches_Range_inv in H3 as (d & -> & Hd).
    by exists d, (w4 ++ t).
  - intros (d & rest & -> & Hd). exists ["/"%char; d], rest. split; [done|].
    apply (matches_Cat _ _ ["/"%char] [d]); [constructor|].
    apply (matches_Cat _ _ [d] []); [by constructor|constructor].
Qed.

Lemma job_name_index file_name :
  job_name file_name =
  (fun i => substring 0 i file_name)
    <$> re_search job_regex (list_ascii_of_string file_name).
Proof. unfold job_name. by destruct (re_search _ _). Qed.

Lemma re_search_job_regex l i :
  re_search job_regex l = Some i <->
  exists d rest,
    l = take i l ++ "/"%char :: d :: rest /\ length (take i l) = i /\
    is_digit d = true /\
    forall a d' b, take i l = a ++ "/"%char :: d' :: b -> is_digit d' = false.
Proof.
  rewrite re_search_spec. split.
  - intros (Hle & (d & rest & Hdrop & Hd)%re_match_job_regex & Hk).
    exists d, rest. split_and!; [| |done|].
    + by rewrite <- Hdrop, take_drop.
    + rewrite length_take. lia.
    + intros a d' b Htake. destruct (is_digit d') eqn:Hd'; [|done]. exfalso.
      assert (Hlen : (length a + 2 <= i)%nat).
      { assert (length (take i l) = length (a ++ "/"%char :: d' :: b))
          as Hl by (by rewrite Htake).
        rewrite length_take, length_app in Hl. cbn [length] in Hl. lia. }
      assert (Hm : re_match job_regex (drop (length a) l) = true).
      { apply re_match_job_regex. exists d', (b ++ drop i l). split; [|done].
        rewrite <- (take_drop i l) at 1. rewrite Htake.
        rewrite <- app_assoc. by rewrite drop_app_length. }
      rewrite Hk in Hm; [discriminate|lia].
  - intros (d & rest & Hl & Hlen & Hd & Hfree).
    assert (Hle : (i <= length l)%nat).
    { rewrite length_take in Hlen. lia. }
    assert (Hdrop : drop i l = "/"%char :: d :: rest).
    { rewrite Hl at 1. rewrite <- Hlen at 1. by rewrite drop_app_length. }
    split_and!; [done| |].
    + apply re_match_job_regex. by exists d, rest.
    + intros k Hlt. destruct (re_match job_regex (drop k l)) eqn:Hm; [|done].
      exfalso.
      apply re_match_job_regex in Hm as (d' & rest' & Hk & Hd').
      assert (Hsplit : drop k l = drop k (take i l) ++ drop i l).
      { rewrite <- (take_drop i l) at 1. rewrite drop_app_le; [done|].
        rewrite length_take. lia. }
      rewrite Hk, Hdrop in Hsplit.
      destruct (drop k (take i l)) as [|x [|y tl]] eqn:Hdk.
      * assert (length (drop k (take i l)) = 0%nat) as Hl0 by (by rewrite Hdk).
        rewrite length_drop, length_take in Hl0. lia.
      * injection Hsplit as _ Heq _. subst d'. by vm_compute in Hd'.
      * injection Hsplit as Hx Hy _. subst x y.
        rewrite (Hfree (take k (take i l)) d' tl) in Hd'; [discriminate|].
        by rewrite <- Hdk, take_drop.
Qed.

Lemma inserted_app l1 l2 : inserted (l1 ++ l2) = inserted l1 ++ inserted l2.
Proof. unfold inserted. induction l1 as [|[] l1 IH]; simpl; by rewrite ?IH. Qed.

Lemma inserted_rows {A} (f : A -> row) (l : list A) :
  inserted (map (fun x => InsertRow (f x)) l) = map f l.
Proof. unfold inserted. induction l as [|x l IH]; simpl; by rewrite ?IH. Qed.

Lemma log_elem_of_rows {A} (f : A -> row) (l : list A) text severity :
  LogText text severity ∉ map (fun x => InsertRow (f x)) l.
Proof. by intros (x & [=] & _)%list_elem_of_fmap. Qed.

(** X12: the job name is the file name up to the first slash followed by
    a digit: when there is one, the file name is the job, the slash, the
    digit and a rest, and the job itself holds no slash followed by a
    digit; when there is none, there is no job name.  In [main], for an
    accepted file name: without a job name the run stops after the warning
    "Job name is not valid", whatever the file holds; with one, the
    warning is not logged and every row inserted bears that job name. *)
Theorem job_name_iff file_name :
  (forall job,
      job_name file_name = Some job <->
      exists d rest,
        file_name = job +:+ String "/" (String d rest) /\
        is_digit d = true /\
        forall a d' b, job = a +:+ String "/" (String d' b) ->
                       is_digit d' = false) /\
  (job_name file_name = None <->
   forall a d b, file_name = a +:+ String "/" (String d b) ->
                 is_digit d = false) /\
  (check_path file_name = true ->
   forall file today,
     match job_name file_name with
     | None =>
         main (Some file_name) file today =
         ([LogText "Successfully connected to GCP Logging Client" "INFO";
           LogText "Successfully connected to GCP Logging Client" "INFO";
           LogText "Build profile found" "INFO";
           LogText "Job name is not valid" "WARNING"], Ok tt)
     | Some job =>
         (LogText "Job name is not valid" "WARNING"
            ∉ fst (main (Some file_name) file today)) /\
         Forall (fun r => JOB_NAME r = job)
                (inserted (fst (main (Some file_name) file today)))
     end).
Proof.
  rewrite job_name_index. split; [|split]; cycle 2.
  { intros Hpath file today. unfold main. rewrite Hpath. cbn [negb].
    destruct (re_search job_regex (list_ascii_of_string file_name)) as [i|];
      cbn [fmap option_fmap option_map]; [|done].
    destruct (get_data file) as [[id threads]|exc];
      [|split; [set_solver|constructor]].
    cbn [fst snd].
    destruct (get_times threads) as [data|exc];
      [|split; [set_solver|constructor]].
    cbn [falsy].
    destruct (create_event_objects data) as [objs|exc]; cbn [fst];
      [|split; [set_solver|constructor]].
    split.
    - rewrite elem_of_app. intros [Hlog|Hrow]; [set_solver|].
      by apply log_elem_of_rows in Hrow.
    - rewrite inserted_app, inserted_rows. cbn [inserted flat_map app].
      apply Forall_forall. by intros r (obj & -> & _)%list_elem_of_fmap. }
  - intros job. split.
    + destruct (re_search job_regex (list_ascii_of_string file_name)) as [i|]
        eqn:Hs; [|discriminate].
      intros [= <-]. apply re_search_job_regex in Hs
        as (d & rest & Hl & _ & Hd & Hfree).
      exists d, (string_of_list_ascii rest). split_and!; [|done|].
      * apply list_ascii_of_string_inj.
        rewrite list_ascii_of_string_app, list_ascii_of_substring.
        cbn [list_ascii_of_string].
        by rewrite list_ascii_of_string_of_list_ascii.
      * intros a d' b Hjob. apply (Hfree (list_ascii_of_string a) d'
                                     (list_ascii_of_string b)).
        rewrite <- list_ascii_of_substring, Hjob, list_ascii_of_string_app.
        done.
    + intros (d & rest & Hfile & Hd & Hfree).
      assert (Hl : list_ascii_of_string file_name =
                   list_ascii_of_string job
                   ++ "/"%char :: d :: list_ascii_of_string rest).
      { by rewrite Hfile, list_ascii_of_string_app. }
      assert (Htake : take (length (list_ascii_of_string job))
                        (list_ascii_of_string file_name)
                      = list_ascii_of_string job).
      { by rewrite Hl, take_app_length. }
      assert (Hs : re_search job_regex (list_ascii_of_string file_name)
                   = Some (length (list_ascii_of_string job))).
      { apply re_search_job_regex. exists d, (list_ascii_of_string rest).
        rewrite Htake. split_and!; [done|done|done|].
        intros a d' b Hjob.
        apply (Hfree (string_of_list_ascii a) d' (string_of_list_ascii b)).
        apply list_ascii_of_string_inj.
        rewrite list_ascii_of_string_app. cbn [list_ascii_of_string].
        by rewrite !list_ascii_of_string_of_list_ascii. }
      rewrite Hs. cbn [fmap option_fmap option_map]. f_equal.
      apply list_ascii_of_string_inj. by rewrite list_ascii_of_substring.
  - destruct (re_search job_regex (list_ascii_of_string file_name)) as [i|]
      eqn:Hs.
    + split; [discriminate|]. intros Hfree. exfalso.
      apply re_search_job_regex in Hs as (d & rest & Hl & _ & Hd & _).
      rewrite (Hfree (substring 0 i file_name) d (string_of_list_ascii rest))
        in Hd; [discriminate|].
      apply list_ascii_of_string_inj.
      rewrite list_ascii_of_string_app, list_ascii_of_substring.
      cbn [list_ascii_of_string]. by rewrite list_ascii_of_string_of_list_ascii.
    + split; [|done]. intros _ a d b Hfile.
      destruct (is_digit d) eqn:Hd; [|done]. exfalso.
      assert (Hm : re_match job_regex
                     (drop (length (list_ascii_of_string a))
                           (list_ascii_of_string file_name)) = true).
      { apply re_match_job_regex. exists d, (list_ascii_of_string b).
        split; [|done]. rewrite Hfile, list_ascii_of_string_app.
        by rewrite drop_app_length. }
      rewrite (proj1 (re_search_None _ _) Hs) in Hm; [discriminate|].
      rewrite Hfile, list_ascii_of_string_app, length_app. lia.
Qed.

(** X13: for a file name that [check_path] accepts, the job name, when
    there is one, starts with "prod/tensorflow/rel": the first slash
    followed by a digit comes after that prefix. *)
Theorem accepted_job_name_prefix file_name job :
  check_path file_name = true -> job_name file_name = Some job ->
  exists rest, job = "prod/tensorflow/rel" +:+ rest.
Proof.
  unfold check_path. rewrite re_match_spec, job_name_index.
  intros (p & t & Hl & (mid & c1 & c2 & -> & _)%check_path_regex_matches).
  destruct (re_search job_regex (list_ascii_of_string file_name)) as [i|]
    eqn:Hs; [|discriminate].
  intros [= <-]. apply re_search_spec in Hs as (Hle & Hm & _).
  assert (Hge : (19 <= i)%nat).
  { destruct (decide (19 <= i)%nat) as [|Hlt]; [done|]. exfalso.
    apply re_match_job_regex in Hm as (d & rest & Hdrop & Hd).
    rewrite Hl in Hdrop.
    do 19 (destruct i as [|i];
           [simpl in Hdrop; simplify_eq; by vm_compute in Hd|]).
    lia. }
  exists (string_of_list_ascii
            (take (i - 19) (drop 19 (list_ascii_of_string file_name)))).
  apply list_ascii_of_string_inj. chars.
  replace i with (19 + (i - 19))%nat at 1 by lia.
  rewrite Hl. reflexivity.
Qed.

(** ** get_times: when it returns *)

Lemma scan_total prior event low high :
  Forall (fun c => is_Some (ts c) /\ is_Some (dur c)) prior ->
  is_Some (dur event) ->
  forall seen self_time,
  exists r, scan prior event low high seen self_time = Ok r.
Proof.
  intros Hprior [de Hde].
  induction Hprior as [|curr prior [[tc Htc] [dc Hdc]] _ IH];
    intros seen self_time; simpl; [eauto|].
  unfold is_child. rewrite Htc, Hdc, Hde. simpl.
  destruct (tc >? low); [|apply IH].
  destruct (tc <? high); [|apply IH].
  destruct (decide (text curr ∉ seen)); [|apply IH]. simpl.
  destruct (dc <? de); apply IH.
Qed.

Lemma accumulate_total event_times event self_time :
  is_Some (name event) ->
  exists event_times', accumulate event_times event self_time = Ok event_times'.
Proof.
  intros [n Hn]. unfold accumulate. rewrite Hn. simpl.
  destruct (dict_has n event_times) eqn:Hhas; simpl.
  - unfold dict_has in Hhas.
    destruct (dict_get n event_times); [simpl; eauto|discriminate].
  - rewrite dict_get_set_eq. simpl. eauto.
Qed.

Lemma process_event_total categories st event :
  Forall (fun c => is_Some (ts c) /\ is_Some (dur c)) (all_events st) ->
  well_formed event ->
  exists s', process_event (categories, st) event = Ok s' /\
             Forall (fun c => is_Some (ts c) /\ is_Some (dur c))
                    (all_events (snd s')).
Proof.
  intros Hinv [[p Hp] Hfields]. unfold process_event. rewrite Hp. simpl.
  destruct (String.eqb p "X") eqn:Hx; [|eauto].
  destruct Hfields as ([n Hn] & [c Hc] & [t Ht] & [d Hd]).
  { unfold is_complete. by rewrite Hp. }
  rewrite Ht, Hd. simpl. unfold record_category. rewrite Hc, Hn. simpl.
  assert (exists r, overlap_subtraction st event d = Ok r) as [[seen' self] ->].
  { unfold overlap_subtraction. rewrite Ht, Hd.
    destruct (total_time st >? 0); [|eauto]. simpl.
    apply scan_total; [|eauto].
    apply Forall_forall. intros x Hx'. rewrite Forall_forall in Hinv.
    apply Hinv. by rewrite list_elem_of_In, in_rev, <- list_elem_of_In. }
  simpl.
  destruct (accumulate_total (event_times st) event self) as [et ->]; [eauto|].
  simpl. eexists. split; [done|]. simpl.
  apply Forall_app. split; [done|]. repeat constructor; eauto.
Qed.

Lemma process_event_Raise categories st event err :
  Forall (fun c => is_Some (ts c) /\ is_Some (dur c)) (all_events st) ->
  process_event (categories, st) event = Raise err ->
  err = IncorrectProfileFormatError \/ err = KeyError (Str "cat") \/
  err = KeyError (Str "name").
Proof.
  intros Hinv. unfold process_event.
  destruct (ph event) as [p|]; simpl; [|intros [= <-]; tauto].
  destruct (String.eqb p "X"); [|discriminate].
  destruct (ts event) as [t|] eqn:Ht; simpl; [|intros [= <-]; tauto].
  destruct (dur event) as [d|] eqn:Hd; simpl; [|intros [= <-]; tauto].
  unfold record_category.
  destruct (cat event) as [c|]; simpl; [|intros [= <-]; tauto].
  destruct (name event) as [n|] eqn:Hn; simpl; [|intros [= <-]; tauto].
  assert (exists r, overlap_subtraction st event d = Ok r) as [[seen' self] ->].
  { unfold overlap_subtraction. rewrite Ht, Hd.
    destruct (total_time st >? 0); [|eauto]. simpl.
    apply scan_total; [|eauto].
    apply Forall_forall. intros x Hx'. rewrite Forall_forall in Hinv.
    apply Hinv. by rewrite list_elem_of_In, in_rev, <- list_elem_of_In. }
  simpl.
  destruct (accumulate_total (event_times st) event self) as [et ->]; [eauto|].
  discriminate.
Qed.

Lemma foldM_process_event_total events : forall categories st,
  Forall (fun c => is_Some (ts c) /\ is_Some (dur c)) (all_events st) ->
  Forall well_formed events ->
  exists s', foldM process_event (categories, st) events = Ok s'.
Proof.
  induction events as [|event events IH]; intros categories st Hinv Hwf;
    cbn [foldM]; [eauto|].
  apply Forall_cons in Hwf as [Hevent Hwf].
  destruct (process_event_total categories st event Hinv Hevent)
    as ([categories1 st1] & -> & Hinv1).
  cbn [mbind result_bind]. by apply IH.
Qed.

Lemma foldM_process_event_Raise events : forall categories st err,
  Forall (fun c => is_Some (ts c) /\ is_Some (dur c)) (all_events st) ->
  foldM process_event (categories, st) events = Raise err ->
  err = IncorrectProfileFormatError \/ err = KeyError (Str "cat") \/
  err = KeyError (Str "name").
Proof.
  induction events as [|event events IH]; intros categories st err Hinv;
    cbn [foldM]; [discriminate|].
  destruct (process_event (categories, st) event) as [[categories1 st1]|err1]
    eqn:Hstep; cbn [mbind result_bind].
  - apply IH.
    destruct (process_event_fields _ _ _ Hstep) as [Hph Hfields].
    destruct (process_event_total categories st event Hinv (conj Hph Hfields))
      as (s' & Hs' & Hinv'). rewrite Hstep in Hs'. by injection Hs' as <-.
  - intros [= <-]. by eapply process_event_Raise.
Qed.

Lemma get_times_exceptions threads err :
  get_times threads = Raise err ->
  err = IncorrectProfileFormatError \/ err = KeyError (Str "cat") \/
  err = KeyError (Str "name").
Proof.
  unfold get_times.
  generalize (([], []) : dict thread_id (dict string Z) * dict string string).
  induction threads as [|[t events] threads IH]; intros [all_threads categories];
    cbn [foldM]; [discriminate|].
  destruct (process_thread (all_threads, categories) (t, events)) as [s1|err1]
    eqn:Hthread; cbn [mbind result_bind]; [apply IH|].
  intros [= <-]. unfold process_thread in Hthread. cbv beta iota in Hthread.
  destruct (foldM process_event (categories, init_thread) events)
    as [[categories1 st1]|err2] eqn:Hevents; [discriminate|].
  injection Hthread as <-.
  apply (foldM_process_event_Raise events categories init_thread);
    [constructor|done].
Qed.

Lemma process_event_Raise_name categories st event :
  Forall (fun c => is_Some (ts c) /\ is_Some (dur c)) (all_events st) ->
  process_event (categories, st) event = Raise (KeyError (Str "name")) ->
  is_Some (cat event) /\ name event = None.
Proof.
  intros Hinv. unfold process_event.
  destruct (ph event) as [p|]; simpl; [|discriminate].
  destruct (String.eqb p "X"); [|discriminate].
  destruct (ts event) as [t|] eqn:Ht; simpl; [|discriminate].
  destruct (dur event) as [d|] eqn:Hd; simpl; [|discriminate].
  unfold record_category.
  destruct (cat event) as [c|]; simpl; [|discriminate].
  destruct (name event) as [n|] eqn:Hn; simpl; [|by eauto].
  assert (exists r, overlap_subtraction st event d = Ok r) as [[seen' self] ->].
  { unfold overlap_subtraction. rewrite Ht, Hd.
    destruct (total_time st >? 0); [|eauto]. simpl.
    apply scan_total; [|eauto].
    apply Forall_forall. intros x Hx'. rewrite Forall_forall in Hinv.
    apply Hinv. by rewrite list_elem_of_In, in_rev, <- list_elem_of_In. }
  simpl.
  destruct (accumulate_total (event_times st) event self) as [et ->]; [eauto|].
  discriminate.
Qed.

Lemma foldM_process_event_Raise_name events : forall categories st,
  Forall (fun c => is_Some (ts c) /\ is_Some (dur c)) (all_events st) ->
  foldM process_event (categories, st) events = Raise (KeyError (Str "name")) ->
  exists event, event ∈ events /\ is_Some (cat event) /\ name event = None.
Proof.
  induction events as [|event events IH]; intros categories st Hinv;
    cbn [foldM]; [discriminate|].
  destruct (process_event (categories, st) event) as [[categories1 st1]|err1]
    eqn:Hstep; cbn [mbind result_bind].
  - intros Hrun.
    destruct (IH categories1 st1) as (e & He & Hcat); [|done|].
    + destruct (process_event_fields _ _ _ Hstep) as [Hph Hfields].
      destruct (process_event_total categories st event Hinv (conj Hph Hfields))
        as (s' & Hs' & Hinv'). rewrite Hstep in Hs'. by injection Hs' as <-.
    + exists e. split; [apply elem_of_cons; by right|done].
  - intros [= ->]. exists event. split; [apply elem_of_cons; by left|].
    by eapply process_event_Raise_name.
Qed.

(** [get_times] raises the [KeyError] for "name" only on a Complete event
    that has a [cat] and no [name]. *)
Lemma get_times_Raise_name threads :
  get_times threads = Raise (KeyError (Str "name")) ->
  exists t events event,
    (t, events) ∈ threads /\ event ∈ events /\
    is_Some (cat event) /\ name event = None.
Proof.
  unfold get_times.
  generalize (([], []) : dict thread_id (dict string Z) * dict string string).
  induction threads as [|[t events] threads IH]; intros [all_threads categories];
    cbn [foldM]; [discriminate|].
  destruct (process_thread (all_threads, categories) (t, events)) as [s1|err1]
    eqn:Hthread; cbn [mbind result_bind].
  - intros (t' & events' & event & Hin & Hrest)%IH.
    exists t', events', event. split; [apply elem_of_cons; by right|done].
  - intros [= ->]. unfold process_thread in Hthread. cbv beta iota in Hthread.
    destruct (foldM process_event (categories, init_thread) events)
      as [[categories1 st1]|err2] eqn:Hevents; [discriminate|].
    injection Hthread as ->.
    apply foldM_process_event_Raise_name in Hevents as (event & Hin & Hcat);
      [|constructor].
    exists t, events, event. split; [apply elem_of_cons; by left|done].
Qed.

(** X14: [get_times] returns exactly when every event of every thread has
    a [ph] field and every Complete event has [name], [cat], [ts] and
    [dur]; when it fails, the exception is the format error (no [ph], or a
    Complete event without [ts] or [dur]) or the [KeyError] for "cat" or
    for "name". *)
Theorem get_times_Ok_iff threads :
  ((exists data, get_times threads = Ok data) <->
   Forall (fun entry => Forall well_formed (snd entry)) threads) /\
  (forall err,
      get_times threads = Raise err ->
      err = IncorrectProfileFormatError \/ err = KeyError (Str "cat") \/
      err = KeyError (Str "name")).
Proof.
  unfold get_times.
  generalize (([], []) : dict thread_id (dict string Z) * dict string string).
  induction threads as [|[t events] threads IH]; intros s; cbn [foldM].
  - split; [split; [constructor|eauto]|discriminate].
  - destruct s as [all_threads categories].
    destruct (foldM process_event (categories, init_thread) events)
      as [[categories1 st1]|err1] eqn:Hevents.
    + assert (Hthread : process_thread (all_threads, categories) (t, events)
                        = Ok (dict_set t (event_times st1) all_threads,
                              categories1)).
      { unfold process_thread. cbv beta iota. by rewrite Hevents. }
      rewrite Hthread. cbn [mbind result_bind].
      destruct (IH (dict_set t (event_times st1) all_threads, categories1))
        as [Hiff Herr].
      split; [|done]. rewrite Hiff, Forall_cons. cbn [snd].
      split; [|tauto]. intros Hrest. split; [|done].
      apply Forall_forall. intros event Hin. unfold well_formed.
      by eapply foldM_process_event_fields.
    + rewrite (process_thread_Raise _ _ _ _ _ Hevents).
      cbn [mbind result_bind]. split.
      * split; [by intros [data [=]]|].
        intros [Hwf _]%Forall_cons. cbn [snd] in Hwf. exfalso.
        destruct (foldM_process_event_total events categories init_thread)
          as [s' Hs']; [constructor|done|]. congruence.
      * intros err [= <-].
        apply (foldM_process_event_Raise events categories init_thread);
          [constructor|done].
Qed.

(** ** main: what is inserted, what is logged, how it ends *)

Lemma dict_elem_of_get {K V} `{EqDecision K} (d : dict K V) k v :
  dict_wf d -> (k, v) ∈ d -> dict_get k d = Some v.
Proof.
  unfold dict_wf, dict_keys. induction d as [|[k' v'] d IH]; simpl.
  - by intros _ ?%elem_of_nil.
  - intros [Hk' Hwf]%NoDup_cons [[= -> ->]|Hin]%elem_of_cons.
    + by rewrite decide_True.
    + rewrite decide_False; [by apply IH|].
      intros ->. apply Hk'. apply list_elem_of_fmap. by exists (k', v).
Qed.





(** The events [get_data] files under a thread are records of the file
    with that [tid], and each has passed the loop of [get_data]. *)
Lemma get_data_records file id threads t events event :
  get_data file = Ok (id, threads) -> (t, events) ∈ threads -> event ∈ events ->
  exists lines,
    file = Some (Document (Some (OtherData (Some id))) (Some lines)) /\
    event ∈ lines /\ tid event = Some t /\
    (is_Some (cat event) -> is_Some (name event)).
Proof.
  intros Hdata Hin Hevent.
  destruct file as [[[[[id'|]]|] [lines|]]|];
    try (unfold get_data, get_data_body in Hdata; simpl in Hdata; discriminate).
  apply get_data_Ok_lines in Hdata as (cats & Hrun & Hid).
  cbn [fst snd] in *. subst id'. exists lines. split; [done|].
  pose proof (foldM_get_data_line_wf _ _ _ Hrun (NoDup_nil_2)) as Hwf.
  apply (dict_elem_of_get _ _ _ Hwf) in Hin.
  rewrite (foldM_get_data_line_threads t _ _ _ Hrun) in Hin.
  cbn [snd dict_get default app] in Hin.
  assert (Hevents : events =
            List.filter (fun l => bool_decide (tid l = Some t)) lines).
  { destruct (List.filter _ lines); [discriminate|]. by injection Hin. }
  rewrite Hevents in Hevent.
  apply list_elem_of_In, filter_In in Hevent as [Hl Htid].
  apply list_elem_of_In in Hl. apply bool_decide_eq_true in Htid.
  split; [done|]. split; [done|].
  assert (Hall : Forall (fun l => is_Some (tid l) /\
                           (is_Some (cat l) -> is_Some (name l))) lines).
  { apply (foldM_get_data_line_Ok_iff lines ([], [])). eauto. }
  rewrite Forall_forall in Hall. by apply Hall.
Qed.



(** X17: what [main] can raise, for a file whose fields have the types of
    the profile format and with clients that answer.  An exception of
    [main] is the [UnableToUnzipFileError] of [get_data], the format error
    or the [KeyError] for "cat" of [get_times], or the [OverflowError] of
    [create_event_objects].  The [KeyError] for "name" of [get_times]
    cannot leave [main]: [get_data] fails first on a record with a [cat]
    and no [name]; and the category lookup of [create_event_objects]
    cannot fail on what [get_times] returned.  The warning about the
    BigQuery client is logged exactly in the last case, a time too large
    for a float. *)
Theorem main_exceptions name file today :
  (forall err,
      snd (main name file today) = Raise err ->
      (exists cause, err = UnableToUnzipFileError cause) \/
      err = IncorrectProfileFormatError \/ err = KeyError (Str "cat") \/
      err = OverflowError) /\
  (LogText "Unable to access Bigquery client" "WARNING"
     ∈ fst (main name file today) <->
   snd (main name file today) = Raise OverflowError).
Proof.
  unfold main.
  destruct name as [file_name|]; [|split; [done|split; [set_solver|done]]].
  destruct (check_path file_name); cbn [negb];
    [|split; [done|split; [set_solver|done]]].
  destruct (re_search job_regex (list_ascii_of_string file_name));
    [|split; [done|split; [set_solver|done]]].
  destruct (get_data file) as [[id threads]|exc] eqn:Hdata.
  2:{ apply get_data_Raise in Hdata as [cause ->].
      split; [|split; [set_solver|done]]. intros err [= <-]. left. by eexists. }
  cbn [fst snd].
  destruct (get_times threads) as [[all_threads categories]|exc] eqn:Htimes.
  2:{ destruct (get_times_exceptions threads exc Htimes) as [-> | [-> | ->]];
        (split; [|split; [set_solver|done]]); intros err [= <-]; try tauto.
      exfalso.
      apply get_times_Raise_name in Htimes
        as (t & events & event & Hin & Hevent & Hcat & Hname).
      destruct (get_data_records _ _ _ _ _ _ Hdata Hin Hevent)
        as (lines & _ & _ & _ & Hhas).
      destruct (Hhas Hcat) as [nm Hnm]. congruence. }
  cbn [falsy].
  destruct (create_event_objects (all_threads, categories)) as [objs|exc]
    eqn:Hobjs; cbn [fst snd].
  - split; [done|]. split; [|done].
    rewrite elem_of_app. intros [Hlog|Hrow]; [set_solver|].
    by apply log_elem_of_rows in Hrow.
  - assert (exc = OverflowError) as ->.
    { unfold create_event_objects in Hobjs.
      apply create_event_objects_Raise in Hobjs
        as (entry & Hin & [[Hnone _]|[_ ->]]); [|done].
      exfalso. apply table_entries_elem_of in Hin as (times & Ht & Hn).
      assert (Hhas : dict_has (snd (fst entry)) categories = true).
      { apply (get_times_names _ _ _ _ _ Htimes
                 ltac:(by intros ? ? ? ?%elem_of_nil) (fst (fst entry)) times);
          [done|].
        apply dict_has_keys, list_elem_of_fmap.
        by exists (snd (fst entry), snd entry). }
      unfold dict_has in Hhas. by rewrite Hnone in Hhas. }
    split; [|split; [done|set_solver]]. intros err [= <-]. tauto.
Qed.

(** Each exception of the list leaves [main] on some profile: a record
    without [tid]; an event without [ph]; a Complete event without [cat];
    a duration of 2^1024 microseconds. *)
Lemma main_exceptions_reached :
  let run lines :=
    snd (main (Some "prod/tensorflow/rel/ubuntu/123/profile.json.gz")
              (profile lines) "2023-01-01") in
  run [event_of (Some "C") None (Some "X") (Some 0) (Some 1) None]
    = Raise (UnableToUnzipFileError IncorrectProfileFormatError) /\
  run [event_of (Some "C") None None (Some 0) (Some 1) (Some (Int 1))]
    = Raise IncorrectProfileFormatError /\
  run [event_of (Some "C") None (Some "X") (Some 0) (Some 1) (Some (Int 1))]
    = Raise (KeyError (Str "cat")) /\
  run [complete "C" "c" 0 (2 ^ 1024)] = Raise OverflowError.
Proof. by vm_compute. Qed.

(** ** The further theorems at sample inputs *)

(** Two records of thread 1 around one of thread 2. *)
Lemma get_data_groups_by_thread_witness :
  let other := event_of (Some "Q") (Some "c") (Some "X") (Some 0) (Some 1)
                          (Some (Int 2)) in
  let lines := [complete "C" "c" 10 20; other; begin "b" "z" 5] in
  let threads := [(Int 1, [complete "C" "c" 10 20; begin "b" "z" 5]);
                  (Int 2, [other])] in
  get_data (profile lines) = Ok ("build", threads) /\
  dict_wf threads /\
  dict_get (Int 1) threads = Some [complete "C" "c" 10 20; begin "b" "z" 5] /\
  dict_get (Int 3) threads = None.
Proof.
  intros other lines threads.
  assert (Hrun : get_data (profile lines) = Ok ("build", threads))
    by (vm_compute; reflexivity).
  destruct (get_data_groups_by_thread _ _ _ Hrun) as (_ & Hwf & Hget & _).
  split; [exact Hrun|]. split; [exact Hwf|].
  split; [exact (Hget (Int 1))|exact (Hget (Int 3))].
Defined.

(** A record with a category and no name, and a well-formed one. *)
Lemma get_data_Ok_iff_witness :
  (exists res, get_data (profile [begin "b" "z" 5]) = Ok res) /\
  ~ (exists res,
        get_data (profile [event_of None (Some "c") (Some "B") None None
                                    (Some (Int 1))]) = Ok res).
Proof.
  split.
  - apply (proj2 (get_data_Ok_iff (profile [begin "b" "z" 5]))).
    exists "build", [begin "b" "z" 5]. split; [reflexivity|].
    repeat constructor; by eexists.
  - intros Hok.
    apply (proj1 (get_data_Ok_iff _)) in Hok as (id & lines & [= <- <-] & Hall).
    apply Forall_cons in Hall as [[_ Hname] _].
    destruct Hname as [n Hn]; [by eexists|discriminate Hn].
Defined.


(** The child and the parent on thread 1, another event on thread 2. *)
Lemma get_times_thread_isolated_witness :
  let other := event_of (Some "Q") (Some "c") (Some "X") (Some 0) (Some 1)
                          (Some (Int 2)) in
  let events := [complete "C" "c" 10 20; complete "P" "c" 0 100] in
  let threads := [(Int 2, [other]); (Int 1, events)] in
  get_times threads =
    Ok ([(Int 2, [("Q", 1)]); (Int 1, [("C", 20); ("P", 80)])],
        [("Q", "c"); ("C", "c"); ("P", "c")]) /\
  exists times categories_t,
    get_times [(Int 1, events)] = Ok ([(Int 1, times)], categories_t) /\
    dict_get (Int 1) [(Int 2, [("Q", 1)]); (Int 1, [("C", 20); ("P", 80)])]
      = Some times.
Proof.
  intros other events threads.
  assert (Hrun : get_times threads =
    Ok ([(Int 2, [("Q", 1)]); (Int 1, [("C", 20); ("P", 80)])],
        [("Q", "c"); ("C", "c"); ("P", "c")])) by (vm_compute; reflexivity).
  split; [exact Hrun|].
  assert (Hwf : dict_wf threads)
    by (apply (bool_decide_unpack _); vm_compute; exact I).
  assert (Hin : (Int 1, events) ∈ threads)
    by (apply elem_of_cons; right; apply elem_of_cons; by left).
  exact (get_times_thread_isolated threads _ _ (Int 1) events Hwf Hrun Hin).
Defined.

(** Thread 2 holds a begin event only. *)
Lemma get_times_keeps_threads_witness :
  let threads := [(Int 1, [complete "C" "c" 10 20]); (Int 2, [begin "b" "z" 5])] in
  let all_threads := [(Int 1, [("C", 20)]); (Int 2, [])] in
  get_times threads = Ok (all_threads, [("C", "c")]) /\
  dict_keys all_threads = dict_keys threads /\
  dict_get (Int 2) all_threads = Some [].
Proof.
  intros threads all_threads.
  assert (Hrun : get_times threads = Ok (all_threads, [("C", "c")]))
    by (vm_compute; reflexivity).
  assert (Hwf : dict_wf threads)
    by (apply (bool_decide_unpack _); vm_compute; exact I).
  destruct (get_times_keeps_threads threads _ _ Hwf Hrun) as [Hkeys Hempty].
  split; [exact Hrun|]. split; [exact Hkeys|].
  apply (Hempty (Int 2) [begin "b" "z" 5]).
  - apply elem_of_cons. right. apply elem_of_cons. by left.
  - by repeat constructor.
Defined.

(** The timeline P, A, B, P, whose second P has a negative self-time. *)
Lemma get_times_thread_total_bounds_witness :
  let events := [complete "P" "c" 100 1; complete "A" "c" 1 5;
                 complete "B" "c" 2 5; complete "P" "c" 0 6] in
  get_times [(Int 1, events)] =
    Ok ([(Int 1, [("P", -3); ("A", 5); ("B", 5)])],
        [("P", "c"); ("A", "c"); ("B", "c")]) /\
  exists times,
    dict_get (Int 1) [(Int 1, [("P", -3); ("A", 5); ("B", 5)])] = Some times /\
    0 <= sum_values times <= sum_dur (List.filter is_complete events).
Proof.
  intros events.
  assert (Hrun : get_times [(Int 1, events)] =
    Ok ([(Int 1, [("P", -3); ("A", 5); ("B", 5)])],
        [("P", "c"); ("A", "c"); ("B", "c")])) by (vm_compute; reflexivity).
  split; [exact Hrun|].
  assert (Hwf : dict_wf [(Int 1, events)])
    by (apply (bool_decide_unpack _); vm_compute; exact I).
  assert (Hin : (Int 1, events) ∈ [(Int 1, events)])
    by (apply elem_of_cons; by left).
  apply (get_times_thread_total_bounds [(Int 1, events)] _ _ (Int 1) events
           Hwf Hrun Hin).
  repeat constructor; intros _; vm_compute; discriminate.
Defined.

(** The child C under P1 and P2: the source of P1 is C, which is nested in
    P1 and comes first. *)
Lemma subtracted_events_are_nested_and_earlier_witness :
  let C := complete "C" "c" 10 5 in
  let P1 := complete "P1" "c" 0 50 in
  let P2 := complete "P2" "c" 5 100 in
  subtractions ([], init_thread) [C; P1; P2] !! 1%nat = Some (P1, [C]) /\
  nested_in C P1 /\
  exists j s, (j < 1)%nat /\
              subtractions ([], init_thread) [C; P1; P2] !! j = Some (C, s).
Proof.
  intros C P1 P2.
  assert (Hrun : foldM process_event ([], init_thread) [C; P1; P2] =
    Ok ([("C", "c"); ("P1", "c"); ("P2", "c")],
        ThreadState 150 [C; P1; P2] [("C", 5); ("P1", 45); ("P2", 100)]
                    {[text C]}))
    by (vm_compute; reflexivity).
  assert (Hlog : subtractions ([], init_thread) [C; P1; P2] !! 1%nat
                 = Some (P1, [C])) by (vm_compute; reflexivity).
  split; [exact Hlog|].
  apply (subtracted_events_are_nested_and_earlier _ _ _ Hrun 1%nat P1 [C] C Hlog).
  apply elem_of_cons. by left.
Defined.

(** Two disjoint events. *)
Lemma get_times_without_nesting_witness :
  let events := [complete "A" "c" 0 10; complete "B" "c" 20 10] in
  get_times [(Int 1, events)] =
    Ok ([(Int 1, [("A", 10); ("B", 10)])], [("A", "c"); ("B", "c")]) /\
  exists times,
    dict_get (Int 1) [(Int 1, [("A", 10); ("B", 10)])] = Some times /\
    sum_values times = sum_dur (List.filter is_complete events) /\
    (forall n, dict_get n times =
               table_entry n None
                 (map (fun e => (e, [])) (List.filter is_complete events))).
Proof.
  intros events.
  assert (Hrun : get_times [(Int 1, events)] =
    Ok ([(Int 1, [("A", 10); ("B", 10)])], [("A", "c"); ("B", "c")]))
    by (vm_compute; reflexivity).
  split; [exact Hrun|].
  assert (Hwf : dict_wf [(Int 1, events)])
    by (apply (bool_decide_unpack _); vm_compute; exact I).
  assert (Hin : (Int 1, events) ∈ [(Int 1, events)])
    by (apply elem_of_cons; by left).
  apply (get_times_without_nesting [(Int 1, events)] _ _ (Int 1) events
           Hwf Hrun Hin).
  - intros i j c e Hij Hi Hj (tc & dc & t & d & Htc & Hdc & Ht & Hd & Hlow & _).
    destruct i as [|[|i]], j as [|[|j]]; simpl in Hi, Hj; try lia;
      try discriminate.
    injection Hi as <-. injection Hj as <-. simpl in Htc, Ht.
    injection Htc as <-. injection Ht as <-. lia.
Defined.

(** The child, then the parent: the child is subtracted. *)
Lemma every_nested_unused_event_is_subtracted_witness :
  let C := complete "C" "c" 10 20 in
  let P := complete "P" "c" 0 100 in
  let st := ThreadState 20 [C] [("C", 20)] ∅ in
  foldM process_event ([], init_thread) [C] = Ok ([("C", "c")], st) /\
  exists s',
    process_event ([("C", "c")], st) P = Ok s' /\
    (exists c', c' ∈ sources_of st P /\ text c' = text C) /\
    text C ∈ seen (snd s').
Proof.
  intros C P st.
  assert (Hpre : foldM process_event ([], init_thread) [C]
                 = Ok ([("C", "c")], st)) by (vm_compute; reflexivity).
  split; [exact Hpre|].
  destruct (process_event ([("C", "c")], st) P) as [s'|err] eqn:Hstep;
    [|vm_compute in Hstep; discriminate Hstep].
  exists s'. split; [reflexivity|].
  apply (every_nested_unused_event_is_subtracted _ _ _ _ _ _ Hpre Hstep).
  - reflexivity.
  - reflexivity.
  - apply elem_of_cons. by left.
  - apply not_elem_of_empty.
  - exists 10, 20, 0, 100. repeat split; reflexivity.
Defined.

(** A table with a name that has no category. *)
Lemma create_event_objects_Ok_iff_witness :
  (exists objs, create_event_objects ([(Int 1, [("n", 80)])], [("n", "c")])
                = Ok objs) /\
  create_event_objects ([(Int 1, [("n", 80)])], []) = Raise (KeyError (Str "n")).
Proof.
  split.
  - apply (proj2 (proj1 (create_event_objects_Ok_iff _ _))).
    repeat constructor; by eexists.
  - destruct (create_event_objects ([(Int 1, [("n", 80)])], [])) as [objs|err]
      eqn:Hrun; [vm_compute in Hrun; discriminate Hrun|].
    destruct (proj2 (create_event_objects_Ok_iff _ _) err Hrun)
      as [(entry & Hin & _ & ->)|(entry & Hin & Hf & _)].
    + apply elem_of_cons in Hin as [->|Hin]; [reflexivity|].
      by apply elem_of_nil in Hin.
    + apply elem_of_cons in Hin as [->|Hin];
        [vm_compute in Hf; discriminate Hf|by apply elem_of_nil in Hin].
Defined.

(** A profile path, with other characters in place of the dots and text
    after "gz". *)
Lemma check_path_accepts_iff_witness :
  check_path "prod/tensorflow/rel/ubuntu/123/profile_json_gz.bak" = true.
Proof.
  apply (proj2 (check_path_accepts_iff _)).
  exists "/ubuntu/123", "_"%char, "_"%char, ".bak".
  split; [reflexivity|]. split; [|split; discriminate].
  unfold no_newline. repeat constructor; discriminate.
Defined.

(** The job of a release profile, and an accepted name without a build
    number. *)
Lemma job_name_iff_witness :
  job_name "prod/tensorflow/rel/ubuntu/123/profile.json.gz"
    = Some "prod/tensorflow/rel/ubuntu" /\
  (forall a d b,
      "prod/tensorflow/rel/ubuntu" = a +:+ String "/" (String d b) ->
      is_digit d = false) /\
  check_path "prod/tensorflow/rel/profile.json.gz" = true /\
  job_name "prod/tensorflow/rel/profile.json.gz" = None /\
  (forall file today,
      main (Some "prod/tensorflow/rel/profile.json.gz") file today =
      ([LogText "Successfully connected to GCP Logging Client" "INFO";
        LogText "Successfully connected to GCP Logging Client" "INFO";
        LogText "Build profile found" "INFO";
        LogText "Job name is not valid" "WARNING"], Ok tt)).
Proof.
  assert (Hjob : job_name "prod/tensorflow/rel/ubuntu/123/profile.json.gz"
                 = Some "prod/tensorflow/rel/ubuntu") by (vm_compute; reflexivity).
  assert (Hpath : check_path "prod/tensorflow/rel/profile.json.gz" = true)
    by (vm_compute; reflexivity).
  split; [exact Hjob|]. split.
  { destruct (proj1 (proj1 (job_name_iff _) _) Hjob)
      as (d & rest & _ & _ & Hfree).
    exact Hfree. }
  split; [exact Hpath|]. split; [vm_compute; reflexivity|].
  exact (proj2 (proj2 (job_name_iff "prod/tensorflow/rel/profile.json.gz"))
           Hpath).
Defined.

Lemma accepted_job_name_prefix_witness :
  exists rest, "prod/tensorflow/rel/ubuntu" = "prod/tensorflow/rel" +:+ rest.
Proof.
  apply (accepted_job_name_prefix
           "prod/tensorflow/rel/ubuntu/123/profile.json.gz").
  - vm_compute. reflexivity.
  - vm_compute. reflexivity.
Defined.

(** A thread with a Complete event that has no duration. *)
Lemma get_times_Ok_iff_witness :
  (exists data, get_times [(Int 1, [complete "C" "c" 10 20; begin "b" "z" 5])]
                = Ok data) /\
  ~ (exists data, get_times [(Int 1, [event_of (Some "C") (Some "c")
                                        (Some "X") (Some 0) None None])]
                  = Ok data).
Proof.
  split.
  - apply (proj2 (proj1 (get_times_Ok_iff _))).
    apply Forall_cons. split; [|constructor]. cbn [snd].
    apply Forall_cons. split; [|apply Forall_cons; split; [|constructor]].
    + split; [by exists "X"|]. intros _.
      split; [by exists "C"|]. split; [by exists "c"|].
      split; [by exists 10|by exists 20].
    + split; [by exists "B"|]. discriminate.
  - intros Hok. apply (proj1 (proj1 (get_times_Ok_iff _))) in Hok.
    apply Forall_cons in Hok as [Hevents _].
    apply Forall_cons in Hevents as [[_ Hfields] _].
    destruct (Hfields eq_refl) as (_ & _ & _ & [d Hd]). discriminate Hd.
Defined.



(** A profile whose only record is a Complete event with a category and no
    name: [get_data] fails on it, and [get_times] is not reached. *)
Lemma main_exceptions_witness :
  let run := main (Some "prod/tensorflow/rel/ubuntu/123/profile.json.gz")
                  (profile [event_of None (Some "c") (Some "X") (Some 0)
                                     (Some 1) (Some (Int 1))]) "2023-01-01" in
  snd run = Raise (UnableToUnzipFileError (KeyError (Str "name"))) /\
  ((exists cause,
       UnableToUnzipFileError (KeyError (Str "name"))
       = UnableToUnzipFileError cause) \/
   UnableToUnzipFileError (KeyError (Str "name")) = IncorrectProfileFormatError \/
   UnableToUnzipFileError (KeyError (Str "name")) = KeyError (Str "cat") \/
   UnableToUnzipFileError (KeyError (Str "name")) = OverflowError) /\
  (LogText "Unable to access Bigquery client" "WARNING" ∉ fst run).
Proof.
  intros run.
  assert (Hend : snd run
                 = Raise (UnableToUnzipFileError (KeyError (Str "name"))))
    by (vm_compute; reflexivity).
  split; [exact Hend|].
  split; [exact (proj1 (main_exceptions _ _ _) _ Hend)|].
  intros Hlog. apply (proj1 (proj2 (main_exceptions _ _ _))) in Hlog.
  fold run in Hlog. rewrite Hend in Hlog. discriminate Hlog.
Defined.
